(** * piano-trainer: the Keyboard view and the settings provider

    A shallow embedding of
      - src/components/Keyboard/Keyboard.tsx   (module [Keyboard])
      - src/components/KVProvider/KVProvider.tsx (module [KVProvider])
    together with the small part of the JavaScript run time both rely on
    (module [JS]): property keys, truthiness and the [String], [Boolean]
    and [Number] coercions. *)

From Stdlib Require Import ZArith String Ascii DecimalString DecimalZ DecimalPos.
From stdpp Require Import gmap strings list fin_maps.

Local Open Scope Z_scope.
Local Open Scope string_scope.
Local Open Scope list_scope.

(** ** JavaScript values used by the two components *)

Module JS.

(** The result of [Number(s)].  The MIDI bridge delivers integers, so a
    number is an integer or [NaN]. *)
Inductive number :=
  | Num (z : Z)
  | NaN.

#[global] Instance number_eq_dec : EqDecision number.
Proof. solve_decision. Defined.

Definition number_to_option (x : number) : option Z :=
  match x with Num z => Some z | NaN => None end.

Definition number_of_option (o : option Z) : number :=
  match o with Some z => Num z | None => NaN end.

#[global] Instance number_countable : Countable number.
Proof.
  apply (inj_countable' number_to_option number_of_option).
  by intros [].
Defined.

(** [ToPropertyKey]: the string under which a computed key [[note]] is
    stored.  [note] is an element of a destructured array, hence a number
    or [undefined]; an integer prints in decimal. *)
Definition ToPropertyKey (v : option Z) : string :=
  match v with
  | Some n => NilZero.string_of_int (Z.to_int n)
  | None => "undefined"
  end.

(** [Number(s)] on the keys of an object: the empty string is [0], a
    decimal integer literal is its value.  Keys that are not decimal
    integer literals do not arise from [ToPropertyKey] on an integer and
    are read as [NaN]. *)
Definition Number (s : string) : number :=
  match s with
  | EmptyString => Num 0
  | _ =>
      match NilZero.int_of_string s with
      | Some d => Num (Z.of_int d)
      | None => NaN
      end
  end.

(** The values a settings store hands back: [string | boolean | null]. *)
Inductive value :=
  | VNull
  | VBool (b : bool)
  | VStr (s : string).

#[global] Instance value_eq_dec : EqDecision value.
Proof. solve_decision. Defined.

(** [Boolean(v)], which is also the test of [if (!v)]. *)
Definition Boolean (v : value) : bool :=
  match v with
  | VNull => false
  | VBool b => b
  | VStr s => negb (String.eqb s EmptyString)
  end.

(** [String(v)]. *)
Definition String_ (v : value) : string :=
  match v with
  | VNull => "null"
  | VBool true => "true"
  | VBool false => "false"
  | VStr s => s
  end.

End JS.

Import JS.

(** ** Keyboard.tsx *)

Module Keyboard.

(** The payload of a [midi_message] event: [{ message: number[] }]. *)
Record payload := { message : list Z }.

(** The callback given to [listen('midi_message', ...)], as the function
    it applies to the [activeNotes] state: both [setActiveNotes] calls take
    an updater, and the two [if]s run one after the other. *)
Definition midi_message_handler (event : payload) (an : gmap string bool)
  : gmap string bool :=
  let command := message event !! 0%nat in
  let note := message event !! 1%nat in
  let an1 :=
    if decide (command = Some 144)
    then <[ToPropertyKey note := true]> an
    else an in
  if decide (command = Some 128)
  then <[ToPropertyKey note := false]> an1
  else an1.

(** What the component owns ([useState]) and what it reaches through the
    Tauri bridge: the connections opened with [invoke], the callbacks
    registered with [listen], and the console. *)
Record world := {
  activeNotes : gmap string bool;
  isListening : bool;
  connections : list Z;          (* inputIdx of every open_midi_connection *)
  listeners : nat;               (* callbacks subscribed to midi_message *)
  console : list string;
  listen_rejects : option string (* the error [listen] rejects with, if any *)
}.

Definition initial_world (e : option string) : world :=
  {| activeNotes := ∅; isListening := false; connections := [];
     listeners := 0; console := []; listen_rejects := e |}.

(** [onLoadCallback]. *)
Definition onLoadCallback (w : world) : world :=
  if isListening w then w
  else
    {| activeNotes := activeNotes w;
       isListening := true;
       connections := connections w ++ [0];
       listeners :=
         match listen_rejects w with
         | None => S (listeners w)
         | Some _ => listeners w
         end;
       console :=
         console w ++ ["Connected & listening to MIDI device..."]
           ++ match listen_rejects w with
              | None => []
              | Some e => [e]
              end;
       listen_rejects := listen_rejects w |}.

(** The bridge emits one event: every registered callback runs on it. *)
Definition emit (event : payload) (w : world) : world :=
  {| activeNotes :=
       Nat.iter (listeners w) (midi_message_handler event) (activeNotes w);
     isListening := isListening w;
     connections := connections w;
     listeners := listeners w;
     console := console w;
     listen_rejects := listen_rejects w |}.

(** The [activeNotes] prop of [<Piano>]:
    [Object.keys(activeNotes).filter(v => activeNotes[v]).map(Number)].
    The keys are enumerated in the order of the finite map; the widget
    only tests membership. *)
Definition Object_keys (o : gmap string bool) : list string :=
  (map_to_list o).*1.

Definition activeNotes_prop (an : gmap string bool) : list number :=
  Number <$> filter (λ v, an !! v = Some true) (Object_keys an).

Definition active_set (an : gmap string bool) : gset number :=
  list_to_set (activeNotes_prop an).

(** A mapping all of whose keys are computed keys [[note]], as the MIDI
    callback writes them. *)
Definition note_keyed (an : gmap string bool) : Prop :=
  ∀ k, is_Some (an !! k) → ∃ v, k = ToPropertyKey v.

(** The trainer context read by the component.  Both fields may be
    missing: the context is created from [{}] and the setter is called
    through [?.]. *)
Record TrainerContext := {
  nextTargetNote : option Z;
  setNoteCounter : bool  (* whether the setter is supplied *)
}.

(** Calls that leave the component from the play and stop handlers. *)
Inductive call :=
  | SetNoteCounter (updater : Z → Z)
  | PlayNote (midiNumber : Z)
  | StopNote (midiNumber : Z).

(** The [playNote] prop of [<Piano>]. *)
Definition playNote (ctx : TrainerContext) (midiNumber : Z) : list call :=
  (if decide (Some midiNumber = nextTargetNote ctx)
   then if setNoteCounter ctx then [SetNoteCounter (λ nc, nc + 1)] else []
   else [])
  ++ [PlayNote midiNumber].

(** The [stopNote] prop of [<Piano>]. *)
Definition stopNote (midiNumber : Z) : list call := [StopNote midiNumber].

(** The collaborators' side of the calls: the trainer's counter and the
    notes handed to the sound renderer. *)
Record outside := {
  noteCounter : Z;
  setter_calls : nat;
  sounded : list Z;
  stopped : list Z
}.

Definition perform (c : call) (o : outside) : outside :=
  match c with
  | SetNoteCounter f =>
      {| noteCounter := f (noteCounter o); setter_calls := S (setter_calls o);
         sounded := sounded o; stopped := stopped o |}
  | PlayNote n =>
      {| noteCounter := noteCounter o; setter_calls := setter_calls o;
         sounded := sounded o ++ [n]; stopped := stopped o |}
  | StopNote n =>
      {| noteCounter := noteCounter o; setter_calls := setter_calls o;
         sounded := sounded o; stopped := stopped o ++ [n] |}
  end.

Definition run (cs : list call) (o : outside) : outside :=
  foldl (λ o c, perform c o) o cs.

(** The mapping after the callback has run on a stream of events, oldest
    first: each [setActiveNotes] updater receives the mapping the one
    before it produced. *)
Definition handle_all (events : list payload) (an : gmap string bool)
  : gmap string bool :=
  foldl (λ an event, midi_message_handler event an) an events.

(** The same for the component: the bridge emits the events in turn. *)
Definition emit_all (events : list payload) (w : world) : world :=
  foldl (λ w event, emit event w) w events.

(** The [useEffect] that calls [onLoadCallback], run [n] times (once on
    mount and once for every change of its dependencies). *)
Definition run_effect (n : nat) (w : world) : world :=
  Nat.iter n onLoadCallback w.

(** Whether an event writes the entry of the note [n]: a note-on or a
    note-off whose note byte is [n]. *)
Definition writes_note (n : option Z) (event : payload) : bool :=
  bool_decide ((message event !! 0%nat = Some 144
                ∨ message event !! 0%nat = Some 128)
               ∧ message event !! 1%nat = n).

(** The character class [[0-9]]. *)
Definition is_digit (c : ascii) : bool :=
  Ascii.leb "0" c && Ascii.leb c "9".

(** [s.replace(/[0-9]/, '')]: the pattern has no [g] flag, so the first
    match is removed and the rest of the string is kept. *)
Fixpoint replace_first_digit (s : string) : string :=
  match s with
  | EmptyString => EmptyString
  | String c s' =>
      if is_digit c then s' else String c (replace_first_digit s')
  end.

(** The text of [renderNoteLabel]; [note_of n] stands for
    [MidiNumbers.getAttributes(n).note] of react-piano. *)
Definition renderNoteLabel (note_of : Z → string) (midiNumber : Z) : string :=
  replace_first_digit (note_of midiNumber).

(** What the [<Piano>] widget does with the two handlers it is given: a
    key goes down or comes up. *)
Inductive piano_event :=
  | Press (midiNumber : Z)
  | Release (midiNumber : Z).

Definition piano_calls (ctx : TrainerContext) (e : piano_event) : list call :=
  match e with
  | Press n => playNote ctx n
  | Release n => stopNote n
  end.

(** The notes of the keys that went down, and of those that came up. *)
Definition presses (es : list piano_event) : list Z :=
  omap (λ e, match e with Press n => Some n | Release _ => None end) es.

Definition releases (es : list piano_event) : list Z :=
  omap (λ e, match e with Release n => Some n | Press _ => None end) es.

(** Whether a string has a match for [[0-9]]. *)
Fixpoint has_digit (s : string) : bool :=
  match s with
  | EmptyString => false
  | String c s' => is_digit c || has_digit s'
  end.

End Keyboard.

(** ** KVProvider.tsx *)

Module KVProvider.

(** [PTSettingsKeyType].  The type is declared in [utils], outside the two
    files; its members are the three cases of the [switch] in
    [loadSettingIntoState], which are also the keys the save effects
    write under. *)
Inductive PTSettingsKeyType :=
  | PianoSound
  | ShowKeyboard
  | MuteSound.

#[global] Instance PTSettingsKeyType_eq_dec : EqDecision PTSettingsKeyType.
Proof. solve_decision. Defined.

Definition key_name (k : PTSettingsKeyType) : string :=
  match k with
  | PianoSound => "piano-sound"
  | ShowKeyboard => "show-keyboard"
  | MuteSound => "mute-sound"
  end.

(** *** The store

    Modelled from the spec: the [Store] class of tauri-plugin-store-api is
    a collaborator outside the repository; the spec gives it as a named
    persisted file-backed store with asynchronous [load],
    [get(key) -> value|absent], [set(key, value)] and [save] (flush).  A
    store has the entries held in memory, the file behind it (which may
    fail to read) and the journal of the calls that changed either. *)
Inductive disk :=
  | Unreadable (e : string)
  | Contents (m : gmap string value).

Inductive store_call :=
  | CallLoad
  | CallSet (key : string) (v : value)
  | CallSave.

Record Store := {
  cache : gmap string value;
  file : disk;
  journal : list store_call
}.

(** [new Store('.settings.dat')] over the file as it is. *)
Definition new_Store (d : disk) : Store :=
  {| cache := ∅; file := d; journal := [] |}.

(** *** The provider *)

Record state := {
  isLoading : bool;
  pianoSound : string;
  showKeyboard : bool;
  muteSound : bool
}.

(** The initial values of the four [useState] calls. *)
Definition initial_state : state :=
  {| isLoading := true; pianoSound := "acoustic_grand_piano";
     showKeyboard := true; muteSound := false |}.

Record world := {
  store : Store;
  st : state;
  console : list string
}.

(** A promise over the world: it settles rejected with an error or
    resolved with a result. *)
Definition M (A : Type) : Type := world → (string + A) * world.

#[global] Instance M_ret : MRet M := λ A x w, (inr x, w).

#[global] Instance M_bind : MBind M := λ A B f m w,
  match m w with
  | (inr a, w') => f a w'
  | (inl e, w') => (inl e, w')
  end.

(** [p.catch(h)] *)
Definition catch (p : M unit) (h : string → M unit) : M unit := λ w,
  match p w with
  | (inl e, w') => h e w'
  | (inr a, w') => (inr a, w')
  end.

(** [p.finally(k)] *)
Definition finally (p : M unit) (k : M unit) : M unit := λ w,
  match p w with
  | (r, w') =>
      match k w' with
      | (inl e, w'') => (inl e, w'')
      | (inr _, w'') => (r, w'')
      end
  end.

Definition with_store (f : Store → Store) : M unit := λ w,
  (inr tt, {| store := f (store w); st := st w; console := console w |}).

Definition with_state (f : state → state) : M unit := λ w,
  (inr tt, {| store := store w; st := f (st w); console := console w |}).

(** Modelled from the spec: [store.load()], which reads the file into
    memory and rejects when the file cannot be read. *)
Definition store_load : M unit := λ w,
  match file (store w) with
  | Unreadable e => (inl e, w)
  | Contents m =>
      with_store (λ s, {| cache := m; file := file s;
                          journal := journal s ++ [CallLoad] |}) w
  end.

(** Modelled from the spec: [store.get(key)], [null] for an absent key. *)
Definition store_get (key : string) : M value := λ w,
  (inr (default VNull (cache (store w) !! key)), w).

(** Modelled from the spec: [store.set(key, value)]. *)
Definition store_set (key : string) (v : value) : M unit :=
  with_store (λ s, {| cache := <[key := v]> (cache s); file := file s;
                      journal := journal s ++ [CallSet key v] |}).

(** Modelled from the spec: [store.save()], the flush to the file. *)
Definition store_save : M unit :=
  with_store (λ s, {| cache := cache s; file := Contents (cache s);
                      journal := journal s ++ [CallSave] |}).

Definition setIsLoading (b : bool) : M unit :=
  with_state (λ s, {| isLoading := b; pianoSound := pianoSound s;
                      showKeyboard := showKeyboard s; muteSound := muteSound s |}).

Definition setPianoSound (x : string) : M unit :=
  with_state (λ s, {| isLoading := isLoading s; pianoSound := x;
                      showKeyboard := showKeyboard s; muteSound := muteSound s |}).

Definition setShowKeyboard (b : bool) : M unit :=
  with_state (λ s, {| isLoading := isLoading s; pianoSound := pianoSound s;
                      showKeyboard := b; muteSound := muteSound s |}).

Definition setMuteSound (b : bool) : M unit :=
  with_state (λ s, {| isLoading := isLoading s; pianoSound := pianoSound s;
                      showKeyboard := showKeyboard s; muteSound := b |}).

Definition console_error (e : string) : M unit := λ w,
  (inr tt, {| store := store w; st := st w; console := console w ++ [e] |}).

(** [saveSetting].  [isLoading] is the value the callback closed over
    ([useCallback(..., [store, isLoading])]). *)
Definition saveSetting (isLoading : bool) (key : PTSettingsKeyType) (v : value)
  : M unit :=
  if isLoading then mret tt
  else store_set (key_name key) v ;; store_save.

(** The three [useEffect]s that save a preference when it changes; each
    runs with the values of the render it belongs to. *)
Definition save_pianoSound : M unit := λ w,
  saveSetting (isLoading (st w)) PianoSound (VStr (pianoSound (st w))) w.

Definition save_showKeyboard : M unit := λ w,
  saveSetting (isLoading (st w)) ShowKeyboard (VBool (showKeyboard (st w))) w.

Definition save_muteSound : M unit := λ w,
  saveSetting (isLoading (st w)) MuteSound (VBool (muteSound (st w))) w.

(** [loadSettingIntoState].  The key arrives through the cast
    [key as PTSettingsKeyType], so it is whatever string the [for ... in]
    produced; the [switch] has no default. *)
Definition loadSettingIntoState (key : string) : M unit :=
  v ← store_get key;
  if negb (Boolean v) then mret tt
  else if decide (key = "piano-sound") then setPianoSound (String_ v)
  else if decide (key = "show-keyboard") then setShowKeyboard (Boolean v)
  else if decide (key = "mute-sound") then setMuteSound (Boolean v)
  else mret tt.

(** [for (const key in ...) { await body(key) }] *)
Fixpoint for_in (keys : list string) (body : string → M unit) : M unit :=
  match keys with
  | [] => mret tt
  | key :: keys' => body key ;; for_in keys' body
  end.

Section Mount.

(** The property names of [AVAILABLE_SETTINGS] (declared in [utils],
    outside the two files), in the order [for ... in] visits them. *)
Variable AVAILABLE_SETTINGS : list string.

(** The [useEffect] that loads the store when the provider mounts. *)
Definition mountEffect : M unit :=
  finally
    (catch
       (store_load ;; for_in AVAILABLE_SETTINGS loadSettingIntoState)
       console_error)
    (setIsLoading false).

(** A provider mounted over the file [d], and the world once its load has
    settled. *)
Definition mount (d : disk) : world :=
  {| store := new_Store d; st := initial_state; console := [] |}.

Definition fresh_load (d : disk) : world := (mountEffect (mount d)).2.

End Mount.

(** [{!isLoading && children}] *)
Definition renders_children (s : state) : bool := negb (isLoading s).

(** The preference a key stands for, as the value the provider saves. *)
Definition preference (k : PTSettingsKeyType) (s : state) : value :=
  match k with
  | PianoSound => VStr (pianoSound s)
  | ShowKeyboard => VBool (showKeyboard s)
  | MuteSound => VBool (muteSound s)
  end.

(** The values of a key's type: a string for [piano-sound], a boolean for
    the other two. *)
Definition has_type (k : PTSettingsKeyType) (v : value) : bool :=
  match k, v with
  | PianoSound, VStr _ => true
  | ShowKeyboard, VBool _ => true
  | MuteSound, VBool _ => true
  | _, _ => false
  end.

(** The coercion [loadSettingIntoState] applies for a key. *)
Definition coerce (k : PTSettingsKeyType) (v : value) : value :=
  match k with
  | PianoSound => VStr (String_ v)
  | ShowKeyboard => VBool (Boolean v)
  | MuteSound => VBool (Boolean v)
  end.

(** What a key's preference is after [loadSettingIntoState] ran for it
    over the entries [m], when it was [old] before. *)
Definition loaded (k : PTSettingsKeyType) (m : gmap string value) (old : value)
  : value :=
  let v := default VNull (m !! key_name k) in
  if Boolean v then coerce k v else old.

(** The spec's three recognised keys, as one possible enumeration. *)
Definition recognised_keys : list string :=
  key_name <$> [PianoSound; ShowKeyboard; MuteSound].

(** The three [useEffect]s that save, in the order the component declares
    them. *)
Definition save_effects : M unit :=
  save_pianoSound ;; save_showKeyboard ;; save_muteSound.

(** The entries in memory once the three save effects have run on a
    provider that has loaded. *)
Definition saved_cache (w : world) : gmap string value :=
  <[key_name MuteSound := VBool (muteSound (st w))]>
    (<[key_name ShowKeyboard := VBool (showKeyboard (st w))]>
       (<[key_name PianoSound := VStr (pianoSound (st w))]> (cache (store w)))).

(** A provider from its mount to the point where it is at rest: the
    effects of the first render (the save effects, then the load), and
    the save effects once more when the load has settled, since clearing
    [isLoading] gives them a new [saveSetting]. *)
Definition session (keys : list string) (d : disk) : world :=
  ((save_effects ;; mountEffect keys ;; save_effects) (mount d)).2.

(** A descendant calls one of the setters of the context. *)
Inductive change :=
  | ChangePianoSound (x : string)
  | ChangeShowKeyboard (b : bool)
  | ChangeMuteSound (b : bool).

(** The setter and the effect it triggers; setting a state to the value it
    has triggers nothing. *)
Definition apply_change (c : change) : M unit := λ w,
  match c with
  | ChangePianoSound x =>
      if decide (pianoSound (st w) = x) then (inr tt, w)
      else (setPianoSound x ;; save_pianoSound) w
  | ChangeShowKeyboard b =>
      if decide (showKeyboard (st w) = b) then (inr tt, w)
      else (setShowKeyboard b ;; save_showKeyboard) w
  | ChangeMuteSound b =>
      if decide (muteSound (st w) = b) then (inr tt, w)
      else (setMuteSound b ;; save_muteSound) w
  end.

(** The state a change asks for. *)
Definition changed (c : change) (s : state) : state :=
  match c with
  | ChangePianoSound x =>
      {| isLoading := isLoading s; pianoSound := x;
         showKeyboard := showKeyboard s; muteSound := muteSound s |}
  | ChangeShowKeyboard b =>
      {| isLoading := isLoading s; pianoSound := pianoSound s;
         showKeyboard := b; muteSound := muteSound s |}
  | ChangeMuteSound b =>
      {| isLoading := isLoading s; pianoSound := pianoSound s;
         showKeyboard := showKeyboard s; muteSound := b |}
  end.

Fixpoint apply_changes (cs : list change) : M unit :=
  match cs with
  | [] => mret tt
  | c :: cs' => apply_change c ;; apply_changes cs'
  end.

(** The file holds the preferences the provider has in memory. *)
Definition in_sync (w : world) : Prop :=
  file (store w) = Contents (cache (store w)) ∧
  ∀ k, cache (store w) !! key_name k = Some (preference k (st w)).

End KVProvider.

(** * Properties *)

(** ** Property keys *)

Section PropertyKeys.

Lemma Number_ToPropertyKey (n : Z) : Number (ToPropertyKey (Some n)) = Num n.
Proof.
  unfold Number, ToPropertyKey.
  assert (Hparse : NilZero.int_of_string (NilZero.string_of_int (Z.to_int n))
                   = Some (Z.to_int n)).
  { apply NilZero.isi; destruct n as [|p|p]; simpl; try discriminate;
      intros [= Hnil]; by apply (Unsigned.to_uint_nonnil p). }
  destruct (NilZero.string_of_int (Z.to_int n)) eqn:Hprint.
  - discriminate Hparse.
  - rewrite Hparse. f_equal. apply DecimalZ.of_to.
Qed.

Lemma Number_undefined : Number (ToPropertyKey None) = NaN.
Proof. reflexivity. Qed.

Lemma Number_key (v : option Z) :
  Number (ToPropertyKey v) = number_of_option v.
Proof. destruct v; [apply Number_ToPropertyKey | apply Number_undefined]. Qed.

Lemma ToPropertyKey_inj (v1 v2 : option Z) :
  ToPropertyKey v1 = ToPropertyKey v2 → v1 = v2.
Proof.
  intros Heq.
  assert (Hn : number_of_option v1 = number_of_option v2)
    by (rewrite <- !Number_key; by f_equal).
  destruct v1, v2; simpl in Hn; congruence.
Qed.

End PropertyKeys.

(** ** The MIDI callback *)

Section MidiCallback.

Import Keyboard.

Implicit Types (event : payload) (an : gmap string bool).

Lemma handler_note_on event an :
  message event !! 0%nat = Some 144 →
  midi_message_handler event an
  = <[ToPropertyKey (message event !! 1%nat) := true]> an.
Proof.
  intros Hc. unfold midi_message_handler. rewrite Hc.
  repeat case_decide; by simplify_eq.
Qed.

Lemma handler_note_off event an :
  message event !! 0%nat = Some 128 →
  midi_message_handler event an
  = <[ToPropertyKey (message event !! 1%nat) := false]> an.
Proof.
  intros Hc. unfold midi_message_handler. rewrite Hc.
  repeat case_decide; by simplify_eq.
Qed.

Lemma handler_other event an :
  message event !! 0%nat ≠ Some 144 →
  message event !! 0%nat ≠ Some 128 →
  midi_message_handler event an = an.
Proof.
  intros Hon Hoff. unfold midi_message_handler.
  repeat case_decide; by simplify_eq.
Qed.

(** The callback writes at one key, whatever the command. *)
Lemma handler_cases event an :
  midi_message_handler event an = an ∨
  ∃ b, midi_message_handler event an
       = <[ToPropertyKey (message event !! 1%nat) := b]> an.
Proof.
  destruct (decide (message event !! 0%nat = Some 144)) as [Hon|Hon].
  { right. exists true. by apply handler_note_on. }
  destruct (decide (message event !! 0%nat = Some 128)) as [Hoff|Hoff].
  { right. exists false. by apply handler_note_off. }
  left. by apply handler_other.
Qed.

(** Running the callback again on the same event changes nothing more, so
    a world with several subscriptions ends in the same mapping. *)
Lemma handler_idempotent event an :
  midi_message_handler event (midi_message_handler event an)
  = midi_message_handler event an.
Proof.
  destruct (decide (message event !! 0%nat = Some 144)) as [Hon|Hon].
  { rewrite !handler_note_on by done. apply insert_insert_eq. }
  destruct (decide (message event !! 0%nat = Some 128)) as [Hoff|Hoff].
  { rewrite !handler_note_off by done. apply insert_insert_eq. }
  by rewrite !handler_other.
Qed.

Lemma emit_subscribed event (w : world) :
  (0 < listeners w)%nat →
  activeNotes (emit event w) = midi_message_handler event (activeNotes w).
Proof.
  unfold emit; simpl. generalize (activeNotes w) as an.
  induction (listeners w) as [|n IH]; intros an Hpos; [lia|].
  destruct n as [|n]; [done|].
  change (midi_message_handler event
            (Nat.iter (S n) (midi_message_handler event) an)
          = midi_message_handler event an).
  rewrite IH by lia. apply handler_idempotent.
Qed.

(** C3.  For every note number [N], the callback run on a message
    [144, N, ...] leaves the active-note mapping with [N] mapped to [true],
    and run next on a message [128, N, ...] leaves it with [N] mapped to
    [false]; the same holds of the mounted component when the bridge emits
    the two events. *)
Theorem note_on_then_note_off (N : Z) (rest rest' : list Z) an :
  let on := {| message := 144 :: N :: rest |} in
  let off := {| message := 128 :: N :: rest' |} in
  let mounted :=
    {| activeNotes := an; isListening := true; connections := [0];
       listeners := 1; console := []; listen_rejects := None |} in
  midi_message_handler on an !! ToPropertyKey (Some N) = Some true ∧
  midi_message_handler off (midi_message_handler on an)
    !! ToPropertyKey (Some N) = Some false ∧
  activeNotes (emit on mounted) !! ToPropertyKey (Some N) = Some true ∧
  activeNotes (emit off (emit on mounted)) !! ToPropertyKey (Some N)
    = Some false.
Proof.
  intros on off mounted.
  assert (Hon : ∀ m, midi_message_handler on m
                     = <[ToPropertyKey (Some N) := true]> m)
    by (intros m; by rewrite handler_note_on).
  assert (Hoff : ∀ m, midi_message_handler off m
                      = <[ToPropertyKey (Some N) := false]> m)
    by (intros m; by rewrite handler_note_off).
  repeat split.
  - rewrite Hon. apply lookup_insert_eq.
  - rewrite Hoff. apply lookup_insert_eq.
  - simpl. rewrite Hon. apply lookup_insert_eq.
  - simpl. rewrite Hoff. apply lookup_insert_eq.
Qed.

(** C7.  An event whose command byte is neither 144 nor 128 (or that has
    no command byte at all) leaves the active-note mapping as it was. *)
Theorem other_command_ignored event an :
  message event !! 0%nat ≠ Some 144 →
  message event !! 0%nat ≠ Some 128 →
  midi_message_handler event an = an.
Proof. apply handler_other. Qed.

Lemma other_command_ignored_witness :
  midi_message_handler {| message := [176; 64; 127] |}
    (<[ToPropertyKey (Some 60) := true]> ∅)
  = <[ToPropertyKey (Some 60) := true]> ∅.
Proof. apply other_command_ignored; simpl; discriminate. Defined.

(** C10.  One event changes the mapping at most at the key of its note
    byte: the entry of every other note, and of every other key, is as
    before; and two events that agree on the bytes at index 0 and 1 act
    alike, whatever follows them. *)
Theorem handler_touches_only_its_note event an :
  (∀ M : Z, message event !! 1%nat ≠ Some M →
     midi_message_handler event an !! ToPropertyKey (Some M)
     = an !! ToPropertyKey (Some M)) ∧
  (∀ k : string, k ≠ ToPropertyKey (message event !! 1%nat) →
     midi_message_handler event an !! k = an !! k) ∧
  (∀ event', message event' !! 0%nat = message event !! 0%nat →
     message event' !! 1%nat = message event !! 1%nat →
     midi_message_handler event' an = midi_message_handler event an).
Proof.
  assert (Hkey : ∀ k : string, k ≠ ToPropertyKey (message event !! 1%nat) →
            midi_message_handler event an !! k = an !! k).
  { intros k Hk. destruct (handler_cases event an) as [->|[b ->]]; [done|].
    by rewrite lookup_insert_ne. }
  split; [|split].
  - intros M HM. apply Hkey. intros Heq. apply HM.
    symmetry. by apply ToPropertyKey_inj.
  - exact Hkey.
  - intros event' H0 H1. unfold midi_message_handler. by rewrite H0, H1.
Qed.

Lemma handler_touches_only_its_note_witness :
  midi_message_handler {| message := [144; 60; 100] |} ∅
    !! ToPropertyKey (Some 61) = None ∧
  midi_message_handler {| message := [144; 60; 100] |} ∅ !! "undefined" = None ∧
  midi_message_handler {| message := [144; 60; 1] |} ∅
  = midi_message_handler {| message := [144; 60; 100] |} ∅.
Proof.
  destruct (handler_touches_only_its_note {| message := [144; 60; 100] |} ∅)
    as (Hnote & Hkey & Hrest).
  split; [|split].
  - rewrite (Hnote 61) by (simpl; discriminate). reflexivity.
  - rewrite (Hkey "undefined") by (vm_compute; discriminate). reflexivity.
  - apply (Hrest {| message := [144; 60; 1] |}); reflexivity.
Defined.

End MidiCallback.

(** ** The listening guard *)

Section ListeningGuard.

Import Keyboard.

Lemma onLoadCallback_first (w : world) :
  isListening w = false →
  connections (onLoadCallback w) = connections w ++ [0] ∧
  isListening (onLoadCallback w) = true ∧
  (listeners (onLoadCallback w) ≤ S (listeners w))%nat.
Proof.
  intros Hl. unfold onLoadCallback. rewrite Hl. simpl.
  repeat split. destruct (listen_rejects w); lia.
Qed.

Lemma onLoadCallback_sets_flag (w : world) :
  isListening (onLoadCallback w) = true.
Proof.
  unfold onLoadCallback. by destruct (isListening w) eqn:Hl.
Qed.

(** C6.  With the listening flag set, [onLoadCallback] does nothing: the
    world is the same, so no connection is opened, no callback is
    subscribed and nothing is logged.  Hence running it twice is running
    it once. *)
Theorem listening_guard (w : world) :
  isListening w = true →
  onLoadCallback w = w ∧
  connections (onLoadCallback w) = connections w ∧
  listeners (onLoadCallback w) = listeners w ∧
  onLoadCallback (onLoadCallback w) = onLoadCallback w.
Proof.
  intros Hl.
  assert (Hsame : onLoadCallback w = w)
    by (unfold onLoadCallback; by rewrite Hl).
  by rewrite !Hsame.
Qed.

Lemma listening_guard_witness :
  let w := onLoadCallback (initial_world None) in
  onLoadCallback w = w ∧
  connections (onLoadCallback w) = [0] ∧
  listeners (onLoadCallback w) = 1%nat ∧
  onLoadCallback (onLoadCallback w) = onLoadCallback w.
Proof.
  exact (listening_guard (onLoadCallback (initial_world None)) eq_refl).
Defined.

(** Whatever the flag, a second run right after a first one is a no-op. *)
Lemma onLoadCallback_idempotent (w : world) :
  onLoadCallback (onLoadCallback w) = onLoadCallback w.
Proof.
  pose proof (onLoadCallback_sets_flag w) as Hl.
  unfold onLoadCallback at 1. by rewrite Hl.
Qed.

End ListeningGuard.

(** ** The play handler *)

Section PlayHandler.

Import Keyboard.

Lemma run_app (cs1 cs2 : list call) (o : outside) :
  run (cs1 ++ cs2) o = run cs2 (run cs1 o).
Proof. apply foldl_app. Qed.

Lemma playNote_match (ctx : TrainerContext) (n : Z) :
  nextTargetNote ctx = Some n → setNoteCounter ctx = true →
  playNote ctx n = [SetNoteCounter (λ nc, nc + 1); PlayNote n].
Proof.
  intros Ht Hs. unfold playNote. rewrite Ht, Hs.
  by rewrite decide_True.
Qed.

Lemma playNote_miss (ctx : TrainerContext) (n : Z) :
  nextTargetNote ctx ≠ Some n → playNote ctx n = [PlayNote n].
Proof.
  intros Ht. unfold playNote. by rewrite decide_False.
Qed.

(** The note always reaches the sound renderer, last. *)
Lemma playNote_forwards (ctx : TrainerContext) (n : Z) (o : outside) :
  sounded (run (playNote ctx n) o) = sounded o ++ [n] ∧
  stopped (run (playNote ctx n) o) = stopped o.
Proof.
  unfold playNote.
  destruct (decide (Some n = nextTargetNote ctx)), (setNoteCounter ctx); done.
Qed.

(** Over a run of plays the setter is called once for each play of the
    target and never otherwise. *)
Lemma setter_calls_count (ctx : TrainerContext) (t : Z) (notes : list Z)
    (o : outside) :
  nextTargetNote ctx = Some t → setNoteCounter ctx = true →
  setter_calls (run (notes ≫= playNote ctx) o)
  = (setter_calls o + length (filter (λ n, n = t) notes))%nat.
Proof.
  intros Ht Hs. revert o.
  induction notes as [|n notes IH]; intros o; simpl.
  { lia. }
  rewrite run_app, IH.
  destruct (decide (n = t)) as [->|Hne].
  - rewrite filter_cons_True by done.
    rewrite (playNote_match ctx t) by done. simpl. lia.
  - rewrite filter_cons_False by done.
    rewrite playNote_miss by congruence. simpl. lia.
Qed.

(** C4.  With target note 60 and the counter setter supplied by the
    trainer context, playing 60 calls the setter exactly once (with the
    increment) and then hands 60 to the renderer's [playNote]; playing 61
    does not call the setter and still hands 61 to [playNote]. *)
Theorem play_target_increments_once (ctx : TrainerContext) (o : outside) :
  nextTargetNote ctx = Some 60 →
  setNoteCounter ctx = true →
  playNote ctx 60 = [SetNoteCounter (λ nc, nc + 1); PlayNote 60] ∧
  run (playNote ctx 60) o
  = {| noteCounter := noteCounter o + 1;
       setter_calls := S (setter_calls o);
       sounded := sounded o ++ [60];
       stopped := stopped o |} ∧
  playNote ctx 61 = [PlayNote 61] ∧
  run (playNote ctx 61) o
  = {| noteCounter := noteCounter o;
       setter_calls := setter_calls o;
       sounded := sounded o ++ [61];
       stopped := stopped o |}.
Proof.
  intros Ht Hs.
  rewrite (playNote_match ctx 60) by done.
  rewrite (playNote_miss ctx 61) by (rewrite Ht; discriminate).
  done.
Qed.

Lemma play_target_increments_once_witness :
  let ctx := {| nextTargetNote := Some 60; setNoteCounter := true |} in
  let o := {| noteCounter := 3; setter_calls := 0; sounded := [];
              stopped := [] |} in
  setter_calls (run (playNote ctx 60) o) = 1%nat ∧
  noteCounter (run (playNote ctx 60) o) = 4 ∧
  sounded (run (playNote ctx 60) o) = [60] ∧
  setter_calls (run (playNote ctx 61) o) = 0%nat ∧
  sounded (run (playNote ctx 61) o) = [61].
Proof.
  intros ctx o.
  destruct (play_target_increments_once ctx o eq_refl eq_refl)
    as (_ & Hhit & _ & Hmiss).
  rewrite Hhit, Hmiss. simpl. done.
Defined.

End PlayHandler.

(** ** The rendered active notes *)

Section ActiveNotes.

Import Keyboard.

Implicit Types (an : gmap string bool) (x : number).

Lemma elem_of_Object_keys an (k : string) :
  k ∈ Object_keys an ↔ is_Some (an !! k).
Proof.
  unfold Object_keys. rewrite list_elem_of_fmap. split.
  - intros ([k' b] & -> & Hin). apply elem_of_map_to_list in Hin. by exists b.
  - intros [b Hb]. exists (k, b). split; [done|]. by apply elem_of_map_to_list.
Qed.

Lemma elem_of_activeNotes_prop an x :
  x ∈ activeNotes_prop an ↔ ∃ k, an !! k = Some true ∧ Number k = x.
Proof.
  unfold activeNotes_prop. rewrite list_elem_of_fmap. split.
  - intros (k & -> & Hin). apply list_elem_of_filter in Hin as [Hk _]. eauto.
  - intros (k & Hk & <-). exists k. split; [done|].
    apply list_elem_of_filter. split; [done|].
    apply elem_of_Object_keys. eauto.
Qed.

Lemma elem_of_active_set an x :
  x ∈ active_set an ↔ ∃ k, an !! k = Some true ∧ Number k = x.
Proof.
  unfold active_set. rewrite elem_of_list_to_set.
  apply elem_of_activeNotes_prop.
Qed.

Lemma note_keyed_empty : note_keyed ∅.
Proof. intros k [b Hb]. by rewrite lookup_empty in Hb. Qed.

Lemma note_keyed_handler (event : payload) an :
  note_keyed an → note_keyed (midi_message_handler event an).
Proof.
  intros Hk. destruct (handler_cases event an) as [->|[b ->]]; [done|].
  intros k. rewrite lookup_insert. case_decide as Heq.
  - intros _. eauto.
  - apply Hk.
Qed.

(** On a mapping whose keys were all written by the MIDI callback, a note
    is rendered active exactly when its own entry is [true]. *)
Lemma active_note_iff an (n : Z) :
  note_keyed an →
  Num n ∈ active_set an ↔ an !! ToPropertyKey (Some n) = Some true.
Proof.
  intros Hk. rewrite elem_of_active_set. split.
  - intros (k & Htrue & Hnum).
    destruct (Hk k) as [v ->]; [eauto|].
    rewrite Number_key in Hnum. destruct v; simplify_eq/=. done.
  - intros Htrue. exists (ToPropertyKey (Some n)).
    split; [done | apply Number_ToPropertyKey].
Qed.

(** C5.  The rendered active notes are the numbers of the keys whose
    entries are [true], for every mapping; an entry that is [false] counts
    as no entry; and [{60: true, 62: false, 64: true}] renders as
    {60, 64}. *)
Theorem rendered_active_set :
  (∀ an x, x ∈ activeNotes_prop an ↔
           ∃ k, an !! k = Some true ∧ Number k = x) ∧
  (∀ an (k : string),
     active_set (<[k := false]> an) = active_set (delete k an)) ∧
  active_set (<[ToPropertyKey (Some 60) := true]>
                (<[ToPropertyKey (Some 62) := false]>
                   (<[ToPropertyKey (Some 64) := true]> ∅)))
  = {[ Num 60; Num 64 ]}.
Proof.
  split; [|split].
  - apply elem_of_activeNotes_prop.
  - intros an k. apply set_eq. intros x. rewrite !elem_of_active_set.
    split; intros (k' & Htrue & Hnum); exists k'; split; try done.
    + destruct (decide (k = k')) as [->|Hne].
      * by rewrite lookup_insert_eq in Htrue.
      * by rewrite lookup_insert_ne in Htrue; [rewrite lookup_delete_ne|].
    + destruct (decide (k = k')) as [->|Hne].
      * by rewrite lookup_delete_eq in Htrue.
      * by rewrite lookup_delete_ne in Htrue; [rewrite lookup_insert_ne|].
  - apply set_eq. intros x. rewrite elem_of_active_set.
    rewrite elem_of_union, !elem_of_singleton. split.
    + intros (k & Htrue & <-).
      apply lookup_insert_Some in Htrue as [[<- _]|[_ Htrue]]; [by left|].
      apply lookup_insert_Some in Htrue as [[_ [=]]|[_ Htrue]].
      apply lookup_insert_Some in Htrue as [[<- _]|[_ Htrue]]; [by right|].
      by rewrite lookup_empty in Htrue.
    + intros [->| ->].
      * exists (ToPropertyKey (Some 60)). by rewrite lookup_insert_eq.
      * exists (ToPropertyKey (Some 64)). split; [|done].
        rewrite !lookup_insert_ne by (vm_compute; discriminate).
        apply lookup_insert_eq.
Qed.

End ActiveNotes.

(** ** Saving a setting *)

Section SaveSetting.

Import KVProvider.

Implicit Types (key : PTSettingsKeyType) (v : value) (w : world).

Lemma key_name_inj key key' : key_name key = key_name key' → key = key'.
Proof. by destruct key, key'. Qed.

Lemma saveSetting_loading key v w : saveSetting true key v w = (inr tt, w).
Proof. reflexivity. Qed.

Lemma saveSetting_loaded key v w :
  saveSetting false key v w
  = (inr tt,
     {| store :=
          {| cache := <[key_name key := v]> (cache (store w));
             file := Contents (<[key_name key := v]> (cache (store w)));
             journal :=
               (journal (store w) ++ [CallSet (key_name key) v]) ++ [CallSave] |};
        st := st w;
        console := console w |}).
Proof. reflexivity. Qed.

(** C2.  While the load is in flight ([isLoading = true]) [saveSetting] is
    a no-op for every key and value: the world is the same, so the store
    has seen neither the write nor the flush, and a read of the store or a
    fresh load of its file gives what it gave before.  With
    [isLoading = false] it writes the value under the key and then
    flushes: the entry is in memory and in the file, and the journal gains
    the [set] and the [save], in that order. *)
Theorem saveSetting_noop_while_loading key v w (keys : list string) :
  (saveSetting true key v w = (inr tt, w) ∧
   journal (store (saveSetting true key v w).2) = journal (store w) ∧
   (∀ name : string,
      store_get name (saveSetting true key v w).2 = store_get name w) ∧
   fresh_load keys (file (store (saveSetting true key v w).2))
   = fresh_load keys (file (store w))) ∧
  ((saveSetting false key v w).1 = inr tt ∧
   cache (store (saveSetting false key v w).2) !! key_name key = Some v ∧
   (∃ m, file (store (saveSetting false key v w).2) = Contents m ∧
         m !! key_name key = Some v) ∧
   journal (store (saveSetting false key v w).2)
   = journal (store w) ++ [CallSet (key_name key) v; CallSave] ∧
   st (saveSetting false key v w).2 = st w).
Proof.
  split.
  - by rewrite saveSetting_loading.
  - rewrite saveSetting_loaded. simpl. repeat split.
    + apply lookup_insert_eq.
    + eexists. split; [done|]. apply lookup_insert_eq.
    + by rewrite <- app_assoc.
Qed.

End SaveSetting.

(** ** Loading the settings *)

Section LoadSettings.

Import KVProvider.

Implicit Types (key : PTSettingsKeyType) (v : value) (w : world).

Lemma Boolean_true_iff v :
  Boolean v = true ↔ v = VBool true ∨ ∃ s, v = VStr s ∧ s ≠ EmptyString.
Proof.
  destruct v as [|b|s]; simpl.
  - split; [done|]. by intros [[=]|(s & [=] & _)].
  - split; [intros ->; by left|]. by intros [[= ->]|(s & [=] & _)].
  - destruct (String.eqb_spec s EmptyString) as [->|Hne]; simpl.
    + split; [done|]. by intros [[=]|(s' & [= <-] & Hne)].
    + split; [|done]. intros _. right. eauto.
Qed.

(** One run of [loadSettingIntoState] for a recognised key. *)
Lemma loadSettingIntoState_key key w :
  let v := default VNull (cache (store w) !! key_name key) in
  loadSettingIntoState (key_name key) w
  = (inr tt,
     if Boolean v then
       {| store := store w;
          st :=
            match key with
            | PianoSound =>
                {| isLoading := isLoading (st w);
                   pianoSound := String_ v;
                   showKeyboard := showKeyboard (st w);
                   muteSound := muteSound (st w) |}
            | ShowKeyboard =>
                {| isLoading := isLoading (st w);
                   pianoSound := pianoSound (st w);
                   showKeyboard := Boolean v;
                   muteSound := muteSound (st w) |}
            | MuteSound =>
                {| isLoading := isLoading (st w);
                   pianoSound := pianoSound (st w);
                   showKeyboard := showKeyboard (st w);
                   muteSound := Boolean v |}
            end;
          console := console w |}
     else w).
Proof.
  intros v. unfold loadSettingIntoState, mbind, M_bind, store_get. fold v.
  destruct (Boolean v); [|done]. by destruct key.
Qed.

(** A key the [switch] does not know leaves the world alone. *)
Lemma loadSettingIntoState_unknown (name : string) w :
  (∀ key, name ≠ key_name key) →
  loadSettingIntoState name w = (inr tt, w).
Proof.
  intros Hname. unfold loadSettingIntoState, mbind, M_bind, store_get.
  destruct (Boolean _); [|done]. simpl.
  rewrite !decide_False; [done|..].
  - apply (Hname MuteSound).
  - apply (Hname ShowKeyboard).
  - apply (Hname PianoSound).
Qed.

Lemma recognised_or_not (name : string) :
  (∃ key, name = key_name key) ∨ (∀ key, name ≠ key_name key).
Proof.
  destruct (decide (name = key_name PianoSound)); [left; eauto|].
  destruct (decide (name = key_name ShowKeyboard)); [left; eauto|].
  destruct (decide (name = key_name MuteSound)); [left; eauto|].
  right. by intros [].
Qed.

(** C8.  For every supported key, [loadSettingIntoState] leaves the state
    as it is when the store has no entry for the key or a falsy one
    ([null], [false], the empty string); otherwise it sets the key's own
    preference, and nothing else, to [String(value)] for [piano-sound] and
    to [Boolean(value)] for [show-keyboard] and [mute-sound]. *)
Theorem loadSettingIntoState_skips_or_coerces key w :
  (cache (store w) !! key_name key = None →
     loadSettingIntoState (key_name key) w = (inr tt, w)) ∧
  (∀ v, cache (store w) !! key_name key = Some v → Boolean v = false →
     loadSettingIntoState (key_name key) w = (inr tt, w)) ∧
  (∀ v, cache (store w) !! key_name key = Some v → Boolean v = true →
     loadSettingIntoState (key_name key) w
     = (inr tt,
        {| store := store w;
           st :=
             {| isLoading := isLoading (st w);
                pianoSound :=
                  if decide (key = PianoSound) then String_ v
                  else pianoSound (st w);
                showKeyboard :=
                  if decide (key = ShowKeyboard) then Boolean v
                  else showKeyboard (st w);
                muteSound :=
                  if decide (key = MuteSound) then Boolean v
                  else muteSound (st w) |};
           console := console w |})).
Proof.
  pose proof (loadSettingIntoState_key key w) as Hload. simpl in Hload.
  split; [|split].
  - intros Hnone. rewrite Hload, Hnone. done.
  - intros v Hsome Hfalsy. rewrite Hload, Hsome. simpl. by rewrite Hfalsy.
  - intros v Hsome Htruthy. rewrite Hload, Hsome. simpl. rewrite Htruthy.
    by destruct key.
Qed.

Lemma loadSettingIntoState_skips_or_coerces_witness :
  let w0 := mount (Contents ∅) in
  let w1 :=
    {| store :=
         {| cache := <["piano-sound" := VStr "marimba"]>
                       (<["show-keyboard" := VBool false]> ∅);
            file := Contents ∅; journal := [] |};
       st := initial_state; console := [] |} in
  loadSettingIntoState "mute-sound" w0 = (inr tt, w0) ∧
  loadSettingIntoState "show-keyboard" w1 = (inr tt, w1) ∧
  pianoSound (st (loadSettingIntoState "piano-sound" w1).2) = "marimba".
Proof.
  intros w0 w1. split; [|split].
  - apply (loadSettingIntoState_skips_or_coerces MuteSound w0). reflexivity.
  - apply (loadSettingIntoState_skips_or_coerces ShowKeyboard w1)
      with (v := VBool false); reflexivity.
  - destruct (loadSettingIntoState_skips_or_coerces PianoSound w1)
      as (_ & _ & Hset).
    change "piano-sound" with (key_name PianoSound).
    rewrite (Hset (VStr "marimba")) by reflexivity. reflexivity.
Defined.

End LoadSettings.

(** ** The load on mount *)

Section MountEffect.

Import KVProvider.

Implicit Types (key : PTSettingsKeyType) (v : value) (w : world).
Implicit Types (keys : list string) (m : gmap string value).

Lemma loaded_idempotent key m (old : value) :
  loaded key m (loaded key m old) = loaded key m old.
Proof. unfold loaded. simpl. by destruct (Boolean _). Qed.

(** One iteration of the loop, for any property name. *)
Lemma loadSettingIntoState_step (name : string) w :
  ∃ s',
    loadSettingIntoState name w
    = (inr tt, {| store := store w; st := s'; console := console w |}) ∧
    isLoading s' = isLoading (st w) ∧
    ∀ key,
      preference key s'
      = if decide (name = key_name key)
        then loaded key (cache (store w)) (preference key (st w))
        else preference key (st w).
Proof.
  destruct w as [sto s c].
  destruct (recognised_or_not name) as [[key0 ->]|Hunknown].
  - rewrite loadSettingIntoState_key. simpl.
    destruct (Boolean (default VNull (cache sto !! key_name key0))) eqn:Hb.
    + eexists. split; [reflexivity|]. split; [by destruct key0|].
      intros key. unfold loaded. case_decide as Heq.
      * apply key_name_inj in Heq as <-.
        destruct key0; simpl in *; by rewrite Hb.
      * destruct key0, key; done.
    + exists s. split; [done|]. split; [done|].
      intros key. unfold loaded. case_decide as Heq; [|done].
      apply key_name_inj in Heq as <-. simpl. by rewrite Hb.
  - rewrite loadSettingIntoState_unknown by done.
    exists s. split; [done|]. split; [done|].
    intros key. rewrite decide_False; [done | apply Hunknown].
Qed.

(** The whole loop: it never rejects, it leaves the store and the console
    alone, and a preference is loaded exactly when its key is visited. *)
Lemma for_in_loadSettingIntoState keys w :
  ∃ s',
    for_in keys loadSettingIntoState w
    = (inr tt, {| store := store w; st := s'; console := console w |}) ∧
    isLoading s' = isLoading (st w) ∧
    ∀ key,
      preference key s'
      = if decide (key_name key ∈ keys)
        then loaded key (cache (store w)) (preference key (st w))
        else preference key (st w).
Proof.
  revert w. induction keys as [|name keys IH]; intros w.
  - exists (st w). destruct w; simpl. repeat split.
  - destruct (loadSettingIntoState_step name w) as (s1 & Hstep & Hl1 & Hp1).
    destruct (IH {| store := store w; st := s1; console := console w |})
      as (s' & Hloop & Hl & Hp).
    exists s'. simpl in *. split; [|split].
    + unfold mbind, M_bind. by rewrite Hstep.
    + congruence.
    + intros key. rewrite Hp, Hp1.
      destruct (decide (name = key_name key)) as [->|Hne].
      * rewrite (decide_True (P := _ ∈ _ :: _)) by apply list_elem_of_here.
        case_decide; [apply loaded_idempotent | done].
      * destruct (decide (key_name key ∈ keys)) as [Hin|Hnin].
        -- rewrite decide_True; [done | by apply list_elem_of_further].
        -- rewrite decide_False; [done|].
           intros [Heq|Hin]%elem_of_cons; [by apply Hne | by apply Hnin].
Qed.

Lemma mountEffect_unreadable keys w (e : string) :
  file (store w) = Unreadable e →
  mountEffect keys w
  = (inr tt,
     {| store := store w;
        st := {| isLoading := false;
                 pianoSound := pianoSound (st w);
                 showKeyboard := showKeyboard (st w);
                 muteSound := muteSound (st w) |};
        console := console w ++ [e] |}).
Proof.
  intros Hfile.
  unfold mountEffect, finally, catch, mbind, M_bind, store_load.
  by rewrite Hfile.
Qed.

Lemma mountEffect_contents keys w m :
  file (store w) = Contents m →
  ∃ s',
    mountEffect keys w
    = (inr tt,
       {| store := {| cache := m; file := Contents m;
                      journal := journal (store w) ++ [CallLoad] |};
          st := s';
          console := console w |}) ∧
    isLoading s' = false ∧
    ∀ key,
      preference key s'
      = if decide (key_name key ∈ keys)
        then loaded key m (preference key (st w))
        else preference key (st w).
Proof.
  intros Hfile.
  unfold mountEffect, finally, catch, mbind, M_bind, store_load.
  rewrite Hfile. unfold with_store at 1.
  match goal with
  | |- context [for_in keys loadSettingIntoState ?w1] =>
      destruct (for_in_loadSettingIntoState keys w1) as (s1 & -> & _ & Hp)
  end.
  simpl in *. rewrite Hfile. eexists. split; [reflexivity|].
  split; [done|]. intros key. rewrite <- Hp. by destruct key.
Qed.

(** The promise chain of the mount effect always resolves, with the
    loading flag cleared. *)
Lemma mountEffect_settles keys w :
  (mountEffect keys w).1 = inr tt ∧
  isLoading (st (mountEffect keys w).2) = false.
Proof.
  destruct (file (store w)) as [e|m] eqn:Hfile.
  - by rewrite (mountEffect_unreadable keys w e).
  - destruct (mountEffect_contents keys w m Hfile) as (s' & -> & Hl & _).
    done.
Qed.

(** C9.  When the load of the store fails with [e], the mount effect
    still resolves: [e] is logged, every preference is what it was (the
    defaults, for a provider that has just mounted), the store is
    untouched and the loading flag is cleared, so the children render; and
    the flag is cleared and the children render after every load, failed
    or not. *)
Theorem load_failure_is_not_fatal keys w (e : string) :
  file (store w) = Unreadable e →
  mountEffect keys w
  = (inr tt,
     {| store := store w;
        st := {| isLoading := false;
                 pianoSound := pianoSound (st w);
                 showKeyboard := showKeyboard (st w);
                 muteSound := muteSound (st w) |};
        console := console w ++ [e] |}) ∧
  fresh_load keys (Unreadable e)
  = {| store := new_Store (Unreadable e);
       st := {| isLoading := false;
                pianoSound := "acoustic_grand_piano";
                showKeyboard := true;
                muteSound := false |};
       console := [e] |} ∧
  renders_children (st (mountEffect keys w).2) = true ∧
  (∀ w0, (mountEffect keys w0).1 = inr tt ∧
         renders_children (st (mountEffect keys w0).2) = true).
Proof.
  intros Hfile. split; [|split; [|split]].
  - by apply mountEffect_unreadable.
  - unfold fresh_load. by rewrite (mountEffect_unreadable _ _ e).
  - unfold renders_children.
    by rewrite (proj2 (mountEffect_settles keys w)).
  - intros w0. destruct (mountEffect_settles keys w0) as [Hres Hl].
    unfold renders_children. by rewrite Hl.
Qed.

Lemma load_failure_is_not_fatal_witness :
  let w := mount (Unreadable "no such file") in
  (mountEffect recognised_keys w).1 = inr tt ∧
  st (mountEffect recognised_keys w).2
  = {| isLoading := false; pianoSound := "acoustic_grand_piano";
       showKeyboard := true; muteSound := false |} ∧
  console (mountEffect recognised_keys w).2 = ["no such file"] ∧
  renders_children (st (mountEffect recognised_keys w).2) = true.
Proof.
  intros w.
  destruct (load_failure_is_not_fatal recognised_keys w "no such file" eq_refl)
    as (Hrun & _ & Hrender & _).
  split; [|split; [|split]]; [| | |exact Hrender]; by rewrite Hrun.
Defined.

End MountEffect.

(** ** Save, then load afresh *)

Section RoundTrip.

Import KVProvider.

Implicit Types (key : PTSettingsKeyType) (v : value) (w : world).
Implicit Types (keys : list string).

(** The preference a fresh provider shows for [key] once [v] was saved
    under it. *)
Lemma reload_after_save keys key v w :
  preference key
    (st (fresh_load keys (file (store (saveSetting false key v w).2))))
  = if decide (key_name key ∈ keys)
    then (if Boolean v then coerce key v else preference key initial_state)
    else preference key initial_state.
Proof.
  rewrite saveSetting_loaded. simpl. unfold fresh_load.
  destruct (mountEffect_contents keys
              (mount (Contents (<[key_name key := v]> (cache (store w)))))
              _ eq_refl) as (s' & -> & _ & Hp).
  simpl. rewrite Hp. unfold loaded. simpl.
  by rewrite lookup_insert_eq.
Qed.

(** A truthy value of the key's type comes back as it was saved, when the
    loop visits the key. *)
Lemma truthy_round_trip keys key v w :
  key_name key ∈ keys → has_type key v = true → Boolean v = true →
  preference key
    (st (fresh_load keys (file (store (saveSetting false key v w).2))))
  = v.
Proof.
  intros Hin Hty Hb. rewrite reload_after_save.
  rewrite decide_True by done. rewrite Hb.
  destruct key, v as [|[]|s]; done.
Qed.

(** [mute-sound] comes back for both booleans, [false] only because the
    skipped load leaves the default, which is [false]. *)
Lemma muteSound_round_trip keys (b : bool) w :
  preference MuteSound
    (st (fresh_load keys
           (file (store (saveSetting false MuteSound (VBool b) w).2))))
  = VBool b ∨ (b = true ∧ key_name MuteSound ∉ keys).
Proof.
  rewrite reload_after_save. case_decide; destruct b; simpl; eauto.
Qed.

(** C1.  The round trip fails for [show-keyboard] and [false]: after
    [saveSetting] has written [false] to the store and flushed it, a
    provider mounted afresh over the file shows [showKeyboard = true],
    whatever keys the loop visits and whatever the world was before. *)
Theorem saved_false_is_not_reloaded keys w :
  let saved := (saveSetting false ShowKeyboard (VBool false) w).2 in
  cache (store saved) !! key_name ShowKeyboard = Some (VBool false) ∧
  (∃ m, file (store saved) = Contents m ∧
        m !! key_name ShowKeyboard = Some (VBool false)) ∧
  preference ShowKeyboard (st (fresh_load keys (file (store saved))))
  = VBool true ∧
  preference ShowKeyboard (st (fresh_load keys (file (store saved))))
  ≠ VBool false.
Proof.
  intros saved. subst saved.
  rewrite reload_after_save. rewrite saveSetting_loaded. simpl.
  split; [apply lookup_insert_eq|].
  split; [eexists; split; [done | apply lookup_insert_eq]|].
  case_decide; done.
Qed.

(** The empty string under [piano-sound] is lost the same way. *)
Lemma saved_empty_string_is_not_reloaded keys w :
  preference PianoSound
    (st (fresh_load keys
           (file (store (saveSetting false PianoSound (VStr EmptyString) w).2))))
  = VStr "acoustic_grand_piano".
Proof. rewrite reload_after_save. by case_decide. Qed.

End RoundTrip.

(** * Further properties of the Keyboard view *)

(** ** Streams of MIDI events *)

Section EventStreams.

Import Keyboard.

Implicit Types (event : payload) (events : list payload).
Implicit Types (an : gmap string bool) (n : option Z).

Lemma handle_all_app events events' an :
  handle_all (events ++ events') an = handle_all events' (handle_all events an).
Proof. apply foldl_app. Qed.

Lemma handle_all_cons event events an :
  handle_all (event :: events) an
  = handle_all events (midi_message_handler event an).
Proof. reflexivity. Qed.

Lemma handle_all_snoc events event an :
  handle_all (events ++ [event]) an
  = midi_message_handler event (handle_all events an).
Proof. by rewrite handle_all_app. Qed.

(** What the callback is, as a function of the mapping. *)
Lemma handler_shape event :
  (writes_note (message event !! 1%nat) event = false ∧
   ∀ an, midi_message_handler event an = an) ∨
  (writes_note (message event !! 1%nat) event = true ∧
   ∀ an, midi_message_handler event an
         = <[ToPropertyKey (message event !! 1%nat)
             := bool_decide (message event !! 0%nat = Some 144)]> an).
Proof.
  unfold writes_note.
  destruct (decide (message event !! 0%nat = Some 144)) as [Hon|Hon].
  { right. split; [apply bool_decide_eq_true; eauto|].
    intros an. rewrite handler_note_on by done. by rewrite bool_decide_true. }
  destruct (decide (message event !! 0%nat = Some 128)) as [Hoff|Hoff].
  { right. split; [apply bool_decide_eq_true; eauto|].
    intros an. rewrite handler_note_off by done. by rewrite bool_decide_false. }
  left. split; [|intros an; by apply handler_other].
  apply bool_decide_eq_false. by intros [[?|?] _].
Qed.

Lemma handler_untouched n event an :
  writes_note n event = false →
  midi_message_handler event an !! ToPropertyKey n = an !! ToPropertyKey n.
Proof.
  intros Hw. destruct (handler_shape event) as [[_ Hid]|[Hw' Hins]].
  { by rewrite Hid. }
  rewrite Hins. apply lookup_insert_ne.
  intros Heq%ToPropertyKey_inj. subst n. congruence.
Qed.

Lemma handle_all_untouched n events an :
  Forall (λ event, writes_note n event = false) events →
  handle_all events an !! ToPropertyKey n = an !! ToPropertyKey n.
Proof.
  intros Hall. revert an.
  induction Hall as [|event events Hw _ IH]; intros an; [done|].
  rewrite handle_all_cons, IH. by apply handler_untouched.
Qed.

(** X1.  In a stream of events the last note-on or note-off of a note
    decides its entry: if [event] writes the note [N] and no later event
    does, the entry of [N] at the end is [true] when [event] is a note-on
    and [false] when it is a note-off, whatever came before. *)
Theorem last_event_wins (N : Z) (before after : list payload) event an :
  writes_note (Some N) event = true →
  Forall (λ e, writes_note (Some N) e = false) after →
  handle_all (before ++ event :: after) an !! ToPropertyKey (Some N)
  = Some (bool_decide (message event !! 0%nat = Some 144)).
Proof.
  intros Hw Hafter.
  rewrite handle_all_app, handle_all_cons.
  rewrite handle_all_untouched by done.
  assert (Hnote : message event !! 1%nat = Some N).
  { pose proof Hw as Hw2. by apply bool_decide_eq_true in Hw2 as [_ ?]. }
  destruct (handler_shape event) as [[Hw' _]|[_ Hins]].
  { rewrite Hnote in Hw'. congruence. }
  rewrite Hins, Hnote. apply lookup_insert_eq.
Qed.

Lemma last_event_wins_witness :
  handle_all
    ([ {| message := [128; 60; 0] |} ] ++
     {| message := [144; 60; 90] |} ::
     [ {| message := [144; 62; 90] |}; {| message := [176; 60; 1] |} ])
    ∅ !! ToPropertyKey (Some 60)
  = Some true.
Proof.
  apply (last_event_wins 60 [ {| message := [128; 60; 0] |} ]
           [ {| message := [144; 62; 90] |}; {| message := [176; 60; 1] |} ]
           {| message := [144; 60; 90] |} ∅).
  - reflexivity.
  - repeat constructor.
Defined.

End EventStreams.

(** ** How events compose *)

Section EventAlgebra.

Import Keyboard.

Implicit Types (event : payload) (events : list payload).
Implicit Types (an : gmap string bool).

(** X2.  Two events with different note bytes can be handled in either
    order: the mapping at the end is the same. *)
Theorem events_on_different_notes_commute (e1 e2 : payload) an :
  message e1 !! 1%nat ≠ message e2 !! 1%nat →
  midi_message_handler e1 (midi_message_handler e2 an)
  = midi_message_handler e2 (midi_message_handler e1 an).
Proof.
  intros Hne.
  destruct (handler_shape e1) as [[_ H1]|[_ H1]],
           (handler_shape e2) as [[_ H2]|[_ H2]];
    rewrite ?H1, ?H2; try done.
  apply insert_insert_ne. intros Heq%ToPropertyKey_inj. by apply Hne.
Qed.

Lemma events_on_different_notes_commute_witness :
  midi_message_handler {| message := [144; 60; 90] |}
    (midi_message_handler {| message := [128; 64; 0] |} ∅)
  = midi_message_handler {| message := [128; 64; 0] |}
      (midi_message_handler {| message := [144; 60; 90] |} ∅).
Proof.
  apply events_on_different_notes_commute. simpl. discriminate.
Defined.

(** X3.  The mapping only grows: an entry, once there, is there after any
    stream of events (a released note stays, mapped to [false]), and an
    entry that is there at the end was there at the start or is the key
    of the note byte of a note-on or note-off of the stream. *)
Theorem mapping_only_grows events an (k : string) :
  (is_Some (an !! k) → is_Some (handle_all events an !! k)) ∧
  (is_Some (handle_all events an !! k) →
   is_Some (an !! k) ∨
   ∃ event, event ∈ events ∧
            writes_note (message event !! 1%nat) event = true ∧
            k = ToPropertyKey (message event !! 1%nat)).
Proof.
  revert an. induction events as [|event events IH]; intros an.
  { split; [done | by left]. }
  rewrite handle_all_cons.
  destruct (IH (midi_message_handler event an)) as [IHin IHout].
  destruct (handler_shape event) as [[_ Hid]|[Hw Hins]].
  - rewrite Hid in *. split; [done|].
    intros [?|(e & He & Hwe & ->)]%IHout; [by left|].
    right. exists e. split; [by apply list_elem_of_further | done].
  - rewrite Hins in *. split.
    + intros Hk. apply IHin, lookup_insert_is_Some.
      destruct (decide (ToPropertyKey (message event !! 1%nat) = k)); eauto.
    + intros [Hk|(e & He & Hwe & ->)]%IHout.
      * apply lookup_insert_is_Some in Hk as [<-|[_ Hk]]; [|by left].
        right. exists event. split; [apply list_elem_of_here | done].
      * right. exists e. split; [by apply list_elem_of_further | done].
Qed.

Lemma mapping_only_grows_witness :
  is_Some (handle_all [ {| message := [128; 60; 0] |} ]
             (<[ToPropertyKey (Some 72) := true]> ∅)
           !! ToPropertyKey (Some 72)) ∧
  ¬ is_Some (handle_all [ {| message := [128; 60; 0] |} ] ∅
             !! ToPropertyKey (Some 61)).
Proof.
  split.
  - apply (mapping_only_grows [ {| message := [128; 60; 0] |} ]).
    rewrite lookup_insert_eq. eauto.
  - intros Hk.
    apply (mapping_only_grows [ {| message := [128; 60; 0] |} ] ∅) in Hk
      as [[? Hk]|(e & He & _ & Hkey)].
    + by rewrite lookup_empty in Hk.
    + apply list_elem_of_singleton in He as ->. vm_compute in Hkey.
      discriminate.
Defined.

Lemma note_keyed_handle_all events an :
  note_keyed an → note_keyed (handle_all events an).
Proof.
  revert an. induction events as [|event events IH]; intros an Hk; [done|].
  rewrite handle_all_cons. by apply IH, note_keyed_handler.
Qed.

(** X4.  From the empty mapping of a fresh component and after any stream
    of events, the widget is given the note [N] as active exactly when the
    entry of [N] is [true]; so [N] is rendered active when the stream ends
    with a note-on of [N] and is not when it ends with a note-off of [N]. *)
Theorem rendered_notes_follow_the_stream (N : Z) events (rest : list Z) :
  (Num N ∈ active_set (handle_all events ∅) ↔
   handle_all events ∅ !! ToPropertyKey (Some N) = Some true) ∧
  Num N ∈ active_set
            (handle_all (events ++ [ {| message := 144 :: N :: rest |} ]) ∅) ∧
  Num N ∉ active_set
            (handle_all (events ++ [ {| message := 128 :: N :: rest |} ]) ∅).
Proof.
  assert (Hiff : ∀ evs, Num N ∈ active_set (handle_all evs ∅) ↔
                        handle_all evs ∅ !! ToPropertyKey (Some N) = Some true).
  { intros evs. apply active_note_iff, note_keyed_handle_all, note_keyed_empty. }
  split; [apply Hiff|]. rewrite !Hiff, !handle_all_snoc. split.
  - rewrite handler_note_on by done. apply lookup_insert_eq.
  - rewrite handler_note_off by done. simpl. by rewrite lookup_insert_eq.
Qed.

(** X5.  A note-on whose message has no note byte writes the key
    ["undefined"], and the widget is then given [NaN] among the active
    notes. *)
Theorem note_on_without_note_byte event an :
  message event !! 0%nat = Some 144 →
  message event !! 1%nat = None →
  midi_message_handler event an !! "undefined" = Some true ∧
  NaN ∈ active_set (midi_message_handler event an) ∧
  ∀ N : Z, midi_message_handler event an !! ToPropertyKey (Some N)
           = an !! ToPropertyKey (Some N).
Proof.
  intros Hcmd Hnote. rewrite handler_note_on by done. rewrite Hnote.
  split; [apply lookup_insert_eq|]. split.
  - apply elem_of_active_set. exists "undefined".
    split; [apply lookup_insert_eq | done].
  - intros N. apply lookup_insert_ne. intros Heq.
    by apply (ToPropertyKey_inj None (Some N)) in Heq.
Qed.

Lemma note_on_without_note_byte_witness :
  NaN ∈ active_set (midi_message_handler {| message := [144] |} ∅).
Proof.
  by destruct (note_on_without_note_byte {| message := [144] |} ∅
                 eq_refl eq_refl) as (_ & Hnan & _).
Defined.

End EventAlgebra.

(** ** The subscription *)

Section Subscription.

Import Keyboard.

Implicit Types (event : payload) (events : list payload) (w : world).

Lemma emit_all_cons event events w :
  emit_all (event :: events) w = emit_all events (emit event w).
Proof. reflexivity. Qed.

Lemma emit_unsubscribed event w : listeners w = 0%nat → emit event w = w.
Proof. intros Hl. destruct w. simpl in Hl. subst. reflexivity. Qed.

(** X6.  With at least one callback subscribed, however many, the
    component's mapping after a stream of events is the one the callback
    gives when run once on each event; with none subscribed the events
    change nothing. *)
Theorem emit_all_is_handle_all events w :
  ((0 < listeners w)%nat →
   activeNotes (emit_all events w) = handle_all events (activeNotes w)) ∧
  (listeners w = 0%nat → emit_all events w = w).
Proof.
  split.
  - revert w. induction events as [|event events IH]; intros w Hpos; [done|].
    rewrite emit_all_cons, handle_all_cons, IH by done.
    by rewrite emit_subscribed.
  - revert w. induction events as [|event events IH]; intros w Hl; [done|].
    rewrite emit_all_cons, emit_unsubscribed by done. by apply IH.
Qed.

Lemma emit_all_is_handle_all_witness :
  let twice :=
    {| activeNotes := ∅; isListening := true; connections := [0; 0];
       listeners := 2; console := []; listen_rejects := None |} in
  let evs := [ {| message := [144; 60; 90] |}; {| message := [128; 60; 0] |} ] in
  activeNotes (emit_all evs twice) = handle_all evs ∅ ∧
  emit_all evs (initial_world None) = initial_world None.
Proof.
  intros twice evs. split.
  - apply (emit_all_is_handle_all evs twice). simpl. lia.
  - by apply (emit_all_is_handle_all evs (initial_world None)).
Defined.

Lemma run_effect_S (n : nat) w : run_effect (S n) w = onLoadCallback w.
Proof.
  induction n as [|n IH]; [done|].
  change (run_effect (S (S n)) w) with (onLoadCallback (run_effect (S n) w)).
  rewrite IH. apply onLoadCallback_idempotent.
Qed.

(** X7.  However often the effect runs [onLoadCallback] on a fresh
    component, there is one connection, opened with input index 0, one
    log line, and one subscription when [listen] resolves. *)
Theorem effect_connects_once (n : nat) :
  run_effect (S n) (initial_world None)
  = {| activeNotes := ∅; isListening := true; connections := [0];
       listeners := 1;
       console := ["Connected & listening to MIDI device..."];
       listen_rejects := None |} ∧
  ∀ w, run_effect (S n) w = onLoadCallback w.
Proof.
  split; [by rewrite run_effect_S | intros w; apply run_effect_S].
Qed.

(** X8.  When [listen] rejects with [e], the error is logged after the
    log line, the flag is set all the same, no callback is subscribed and
    the effect never tries again: whatever events the bridge emits, the
    mapping stays empty and no note is rendered active. *)
Theorem failed_subscription_is_inert (e : string) (n : nat) events :
  let w := run_effect (S n) (initial_world (Some e)) in
  w = {| activeNotes := ∅; isListening := true; connections := [0];
         listeners := 0;
         console := ["Connected & listening to MIDI device..."; e];
         listen_rejects := Some e |} ∧
  emit_all events w = w ∧
  active_set (activeNotes (emit_all events w)) = ∅.
Proof.
  intros w. subst w. rewrite run_effect_S.
  assert (Hq : emit_all events (onLoadCallback (initial_world (Some e)))
               = onLoadCallback (initial_world (Some e))).
  { revert events. induction events as [|event events IH]; [done|].
    rewrite emit_all_cons. by rewrite emit_unsubscribed. }
  split; [done|]. split; [done|]. rewrite Hq. done.
Qed.

End Subscription.

(** ** Keys going down and coming up *)

Section PianoStream.

Import Keyboard.

Implicit Types (ctx : TrainerContext) (es : list piano_event) (o : outside).

Lemma run_playNote ctx (n : Z) o :
  run (playNote ctx n) o
  = let hit := bool_decide (Some n = nextTargetNote ctx) && setNoteCounter ctx in
    {| noteCounter := if hit then noteCounter o + 1 else noteCounter o;
       setter_calls := if hit then S (setter_calls o) else setter_calls o;
       sounded := sounded o ++ [n];
       stopped := stopped o |}.
Proof.
  unfold playNote. case_bool_decide as Hhit; simpl.
  - rewrite decide_True by done. by destruct (setNoteCounter ctx).
  - by rewrite decide_False.
Qed.

(** X9.  Over any sequence of key presses and releases, whatever the
    trainer context: every pressed note reaches the renderer's [playNote]
    and every released note its [stopNote], in order; the counter setter is
    called once for each press of the target note, when there is a target
    and a setter, and never otherwise; and the counter rises by the number
    of those calls. *)
Theorem piano_stream_totals ctx es o :
  let o' := run (es ≫= piano_calls ctx) o in
  let hits :=
    if setNoteCounter ctx
    then length (filter (λ n, Some n = nextTargetNote ctx) (presses es))
    else 0%nat in
  sounded o' = sounded o ++ presses es ∧
  stopped o' = stopped o ++ releases es ∧
  setter_calls o' = (setter_calls o + hits)%nat ∧
  noteCounter o' = noteCounter o + Z.of_nat hits.
Proof.
  simpl. revert o. induction es as [|[n|n] es IH]; intros o.
  - change (presses []) with (@nil Z). change (releases []) with (@nil Z).
    rewrite !app_nil_r. destruct (setNoteCounter ctx); simpl; repeat split; lia.
  - change ((Press n :: es) ≫= piano_calls ctx)
      with (playNote ctx n ++ (es ≫= piano_calls ctx)).
    rewrite run_app, run_playNote.
    destruct (IH (run (playNote ctx n) o)) as (Hs & Ht & Hc & Hn).
    rewrite run_playNote in Hs, Ht, Hc, Hn. simpl in *.
    rewrite Hs, Ht, Hc, Hn, <- app_assoc.
    change (presses (Press n :: es)) with (n :: presses es).
    change (releases (Press n :: es)) with (releases es).
    destruct (setNoteCounter ctx); rewrite ?andb_false_r, ?andb_true_r.
    + case_bool_decide as Hhit.
      * rewrite filter_cons_True by done. simpl. repeat split; lia.
      * rewrite filter_cons_False by done. done.
    + done.
  - change ((Release n :: es) ≫= piano_calls ctx)
      with (stopNote n ++ (es ≫= piano_calls ctx)).
    rewrite run_app.
    destruct (IH (run (stopNote n) o)) as (Hs & Ht & Hc & Hn).
    simpl in *. rewrite Hs, Ht, Hc, Hn, <- app_assoc. done.
Qed.

End PianoStream.

(** ** Note labels *)

Section NoteLabel.

Import Keyboard.

Lemma replace_first_digit_none (s : string) :
  has_digit s = false → replace_first_digit s = s.
Proof.
  induction s as [|c s IH]; [done|]. simpl.
  intros [Hc Hs]%orb_false_elim. rewrite Hc. by rewrite IH.
Qed.

Lemma replace_first_digit_split (pre post : string) (d : ascii) :
  has_digit pre = false → is_digit d = true →
  replace_first_digit (pre +:+ String d post) = pre +:+ post.
Proof.
  intros Hpre Hd. induction pre as [|c pre IH]; simpl.
  - by rewrite Hd.
  - simpl in Hpre. apply orb_false_elim in Hpre as [Hc Hpre].
    rewrite Hc. by rewrite IH.
Qed.

Lemma has_digit_app (s1 s2 : string) :
  has_digit (s1 +:+ s2) = has_digit s1 || has_digit s2.
Proof.
  induction s1 as [|c s1 IH]; [done|]. simpl. by rewrite IH, orb_assoc.
Qed.

(** X10.  The label is the note name without its first digit, and only
    that one: a name with no digit is shown as it is, a name with one
    digit loses it, and a name with more digits keeps the others (a second
    octave digit stays in the label). *)
Theorem label_drops_first_digit_only (note_of : Z → string) (n : Z) :
  (has_digit (note_of n) = false → renderNoteLabel note_of n = note_of n) ∧
  (∀ (pre post : string) (d : ascii),
     note_of n = pre +:+ String d post →
     has_digit pre = false → is_digit d = true →
     renderNoteLabel note_of n = pre +:+ post ∧
     has_digit (renderNoteLabel note_of n) = has_digit post).
Proof.
  unfold renderNoteLabel. split.
  - apply replace_first_digit_none.
  - intros pre post d -> Hpre Hd.
    rewrite replace_first_digit_split by done.
    split; [done|]. by rewrite has_digit_app, Hpre.
Qed.

Lemma label_drops_first_digit_only_witness :
  let note_of := λ n : Z, if decide (n = 60) then "C4"
                          else if decide (n = 61) then "Db4"
                          else if decide (n = 132) then "C10"
                          else "C" in
  renderNoteLabel note_of 0 = "C" ∧
  renderNoteLabel note_of 60 = "C" ∧
  renderNoteLabel note_of 61 = "Db" ∧
  renderNoteLabel note_of 132 = "C0" ∧
  has_digit (renderNoteLabel note_of 132) = true.
Proof.
  intros note_of.
  destruct (label_drops_first_digit_only note_of 0) as [Hnone _].
  destruct (label_drops_first_digit_only note_of 60) as [_ H60].
  destruct (label_drops_first_digit_only note_of 61) as [_ H61].
  destruct (label_drops_first_digit_only note_of 132) as [_ H132].
  destruct (H60 "C" EmptyString "4"%char eq_refl eq_refl eq_refl) as [L60 _].
  destruct (H61 "Db" EmptyString "4"%char eq_refl eq_refl eq_refl) as [L61 _].
  destruct (H132 "C" "0" "1"%char eq_refl eq_refl eq_refl) as [L132 D132].
  exact (conj (Hnone eq_refl) (conj L60 (conj L61 (conj L132 D132)))).
Defined.

End NoteLabel.

(** * Further properties of the settings provider *)

(** ** What a fresh load gives *)

Section FreshLoad.

Import KVProvider.

Implicit Types (key : PTSettingsKeyType) (v : value) (w : world).
Implicit Types (keys : list string) (m : gmap string value) (d : disk).

Lemma state_ext (s s' : state) :
  isLoading s = isLoading s' →
  (∀ key, preference key s = preference key s') →
  s = s'.
Proof.
  intros Hl Hp. destruct s, s'. simpl in *.
  pose proof (Hp PianoSound) as [= ->].
  pose proof (Hp ShowKeyboard) as [= ->].
  pose proof (Hp MuteSound) as [= ->].
  by subst.
Qed.

(** The world a fresh provider is in once its load has settled. *)
Lemma fresh_load_unreadable keys (e : string) :
  fresh_load keys (Unreadable e)
  = {| store := new_Store (Unreadable e);
       st := {| isLoading := false; pianoSound := "acoustic_grand_piano";
                showKeyboard := true; muteSound := false |};
       console := [e] |}.
Proof. unfold fresh_load. by rewrite (mountEffect_unreadable _ _ e). Qed.

Lemma fresh_load_contents keys m :
  ∃ s',
    fresh_load keys (Contents m)
    = {| store := {| cache := m; file := Contents m; journal := [CallLoad] |};
         st := s'; console := [] |} ∧
    isLoading s' = false ∧
    ∀ key,
      preference key s'
      = if decide (key_name key ∈ keys)
        then loaded key m (preference key initial_state)
        else preference key initial_state.
Proof.
  unfold fresh_load.
  destruct (mountEffect_contents keys (mount (Contents m)) m eq_refl)
    as (s' & -> & Hl & Hp).
  by exists s'.
Qed.

Lemma String_truthy_nonempty v : Boolean v = true → String_ v ≠ EmptyString.
Proof.
  intros [->|(s & -> & Hs)]%Boolean_true_iff; [discriminate | done].
Qed.

(** X11.  The load does not depend on how [for ... in] enumerates the
    settings: two enumerations that contain the same recognised keys, in
    any order, with or without repetitions or other names, leave a fresh
    provider in the same world. *)
Theorem load_ignores_enumeration keys keys' d :
  (∀ key, key_name key ∈ keys ↔ key_name key ∈ keys') →
  fresh_load keys d = fresh_load keys' d.
Proof.
  intros Hsame. destruct d as [e|m].
  { by rewrite !fresh_load_unreadable. }
  destruct (fresh_load_contents keys m) as (s1 & -> & Hl1 & Hp1).
  destruct (fresh_load_contents keys' m) as (s2 & -> & Hl2 & Hp2).
  f_equal. apply state_ext; [congruence|].
  intros key. rewrite Hp1, Hp2.
  destruct (decide (key_name key ∈ keys)) as [Hin|Hnin].
  - rewrite decide_True; [done | by apply Hsame].
  - rewrite decide_False; [done | by rewrite <- Hsame].
Qed.

Lemma load_ignores_enumeration_witness :
  let d := Contents (<["mute-sound" := VBool true]>
                       (<["piano-sound" := VStr "marimba"]> ∅)) in
  fresh_load ["mute-sound"; "0"; "piano-sound"; "mute-sound"] d
  = fresh_load ["piano-sound"; "mute-sound"] d.
Proof.
  intros d. apply load_ignores_enumeration.
  intros []; split; intros Hin;
    first [ by apply (bool_decide_unpack _); vm_compute
          | by apply (bool_decide_pack _) in Hin; vm_compute in Hin ].
Defined.

Lemma fresh_load_settled keys d :
  showKeyboard (st (fresh_load keys d)) = true ∧
  pianoSound (st (fresh_load keys d)) ≠ EmptyString.
Proof.
  destruct d as [e|m].
  { by rewrite fresh_load_unreadable. }
  destruct (fresh_load_contents keys m) as (s' & -> & _ & Hp). simpl.
  pose proof (Hp ShowKeyboard) as Hshow.
  pose proof (Hp PianoSound) as Hpiano.
  unfold loaded in *. simpl in *. split.
  - clear Hpiano.
    destruct (decide _); [destruct (Boolean _)|]; by simplify_eq.
  - clear Hshow.
    destruct (decide _); [destruct (Boolean _) eqn:Hb|];
      injection Hpiano as ->; try done.
    by apply String_truthy_nonempty.
Qed.

Lemma fresh_load_unvisited keys d key :
  key_name key ∉ keys →
  preference key (st (fresh_load keys d)) = preference key initial_state.
Proof.
  intros Hnin. destruct d as [e|m].
  { rewrite fresh_load_unreadable. by destruct key. }
  destruct (fresh_load_contents keys m) as (s' & -> & _ & Hp). simpl.
  rewrite Hp. by rewrite decide_False.
Qed.

(** X12.  Whatever the file holds and whatever keys are visited, a
    provider that has just loaded shows the keyboard and has a non-empty
    piano sound; and it is muted exactly when [mute-sound] is visited and
    the file has a truthy value for it. *)
Theorem fresh_load_never_hides_keyboard keys d :
  showKeyboard (st (fresh_load keys d)) = true ∧
  pianoSound (st (fresh_load keys d)) ≠ EmptyString ∧
  (muteSound (st (fresh_load keys d)) = true ↔
   key_name MuteSound ∈ keys ∧
   ∃ m v, d = Contents m ∧ m !! key_name MuteSound = Some v ∧
          Boolean v = true).
Proof.
  destruct (fresh_load_settled keys d) as [Hshow Hpiano].
  split; [done|]. split; [done|]. clear Hshow Hpiano.
  destruct d as [e|m].
  { rewrite fresh_load_unreadable. simpl.
    split; [done|]. by intros (_ & m & v & [=] & _). }
  destruct (fresh_load_contents keys m) as (s' & -> & _ & Hp). simpl.
  pose proof (Hp MuteSound) as Hmute.
  unfold loaded in *. simpl in *.
  - split.
    + intros Htrue. rewrite Htrue in Hmute.
      destruct (decide ("mute-sound" ∈ keys)) as [Hin|]; [|done].
      split; [done|]. exists m.
      destruct (m !! "mute-sound") as [v|] eqn:Hv; simpl in *; [|done].
      exists v. split; [done|]. split; [done|].
      by destruct (Boolean v).
    + intros (Hin & m' & v & [= <-] & Hv & Hb).
      rewrite decide_True in Hmute by done.
      rewrite Hv in Hmute. simpl in Hmute. rewrite Hb in Hmute.
      by simplify_eq.
Qed.

(** X13.  The load reads and never writes: once the mount effect has
    settled the file is the one it was, the journal of the store has
    gained at most the [load], and for a readable file the entries in
    memory are those of the file. *)
Theorem load_never_writes keys w :
  file (store (mountEffect keys w).2) = file (store w) ∧
  (journal (store (mountEffect keys w).2) = journal (store w) ∨
   journal (store (mountEffect keys w).2) = journal (store w) ++ [CallLoad]) ∧
  ∀ name : string,
    cache (store (mountEffect keys w).2) !! name
    = match file (store w) with
      | Contents m => m !! name
      | Unreadable _ => cache (store w) !! name
      end.
Proof.
  destruct (file (store w)) as [e|m] eqn:Hfile.
  - rewrite (mountEffect_unreadable keys w e) by done. simpl. eauto.
  - destruct (mountEffect_contents keys w m Hfile) as (s' & -> & _ & _).
    simpl. eauto.
Qed.

(** X14.  While the load is in flight the children stay hidden: from a
    provider that is loading, neither the load of the store, nor any
    number of iterations of the loop, nor the [catch] clears the flag;
    only the [finally] does. *)
Theorem children_hidden_until_settled keys w :
  isLoading (st w) = true →
  renders_children
    (st ((store_load ;; for_in keys loadSettingIntoState) w).2) = false ∧
  renders_children
    (st (catch (store_load ;; for_in keys loadSettingIntoState)
           console_error w).2) = false ∧
  renders_children (st (mountEffect keys w).2) = true.
Proof.
  intros Hl. unfold renders_children.
  rewrite (proj2 (mountEffect_settles keys w)).
  unfold catch, mbind, M_bind, store_load.
  destruct (file (store w)) as [e|m]; simpl.
  { by rewrite Hl. }
  match goal with
  | |- context [for_in keys loadSettingIntoState ?w1] =>
      destruct (for_in_loadSettingIntoState keys w1) as (s1 & -> & Hl1 & _)
  end.
  simpl in *. by rewrite Hl1, Hl.
Qed.

Lemma children_hidden_until_settled_witness :
  let d := Contents (<["piano-sound" := VStr "marimba"]> ∅) in
  renders_children
    (st ((store_load ;; for_in recognised_keys loadSettingIntoState)
           (mount d)).2) = false ∧
  renders_children (st (mountEffect recognised_keys (mount d)).2) = true.
Proof.
  intros d.
  destruct (children_hidden_until_settled recognised_keys (mount d) eq_refl)
    as (Hloop & _ & Hdone).
  exact (conj Hloop Hdone).
Defined.

End FreshLoad.

(** ** A whole session *)

Section Session.

Import KVProvider.

Implicit Types (key : PTSettingsKeyType) (v : value) (w : world).
Implicit Types (keys : list string) (m : gmap string value) (d : disk).

Lemma save_effects_loading w :
  isLoading (st w) = true → save_effects w = (inr tt, w).
Proof.
  intros Hl.
  unfold save_effects, mbind, M_bind, save_pianoSound, save_showKeyboard,
    save_muteSound.
  rewrite Hl. simpl. rewrite Hl. simpl. by rewrite Hl.
Qed.

Lemma save_effects_loaded w :
  isLoading (st w) = false →
  save_effects w
  = (inr tt,
     {| store :=
          {| cache := saved_cache w;
             file := Contents (saved_cache w);
             journal :=
               journal (store w)
               ++ [CallSet (key_name PianoSound) (VStr (pianoSound (st w)));
                   CallSave;
                   CallSet (key_name ShowKeyboard) (VBool (showKeyboard (st w)));
                   CallSave;
                   CallSet (key_name MuteSound) (VBool (muteSound (st w)));
                   CallSave] |};
        st := st w;
        console := console w |}).
Proof.
  intros Hl.
  unfold save_effects, mbind, M_bind, save_pianoSound, save_showKeyboard,
    save_muteSound.
  rewrite Hl. simpl. rewrite Hl. simpl. rewrite Hl.
  unfold saveSetting, mbind, M_bind. simpl.
  unfold store_save, with_store. simpl. by rewrite <- !app_assoc.
Qed.

Lemma saved_cache_lookup w key :
  saved_cache w !! key_name key = Some (preference key (st w)).
Proof.
  unfold saved_cache. destruct key; simpl.
  - rewrite 2!lookup_insert_ne by done. apply lookup_insert_eq.
  - rewrite lookup_insert_ne by done. apply lookup_insert_eq.
  - apply lookup_insert_eq.
Qed.

Lemma saved_cache_other w (name : string) :
  (∀ key, name ≠ key_name key) →
  saved_cache w !! name = cache (store w) !! name.
Proof.
  intros Hname. unfold saved_cache.
  rewrite !lookup_insert_ne; [done|..]; apply not_eq_sym, Hname.
Qed.

Lemma saved_cache_in_sync w :
  (∀ key, cache (store w) !! key_name key = Some (preference key (st w))) →
  saved_cache w = cache (store w).
Proof.
  intros Hsync. unfold saved_cache.
  rewrite (insert_id _ (key_name PianoSound)) by apply (Hsync PianoSound).
  rewrite (insert_id _ (key_name ShowKeyboard)) by apply (Hsync ShowKeyboard).
  by rewrite (insert_id _ (key_name MuteSound)) by apply (Hsync MuteSound).
Qed.

Lemma fresh_load_isLoading keys d : isLoading (st (fresh_load keys d)) = false.
Proof. apply mountEffect_settles. Qed.

Lemma session_eq keys d :
  session keys d = (save_effects (fresh_load keys d)).2.
Proof.
  unfold session, fresh_load, mbind at 1, M_bind at 1.
  rewrite save_effects_loading by done.
  unfold mbind, M_bind.
  pose proof (proj1 (mountEffect_settles keys (mount d))) as Hres.
  destruct (mountEffect keys (mount d)) as [r w1]. simpl in *. by subst r.
Qed.

Lemma session_world keys d :
  session keys d
  = {| store :=
         {| cache := saved_cache (fresh_load keys d);
            file := Contents (saved_cache (fresh_load keys d));
            journal :=
              journal (store (fresh_load keys d))
              ++ [CallSet (key_name PianoSound)
                    (VStr (pianoSound (st (fresh_load keys d))));
                  CallSave;
                  CallSet (key_name ShowKeyboard)
                    (VBool (showKeyboard (st (fresh_load keys d))));
                  CallSave;
                  CallSet (key_name MuteSound)
                    (VBool (muteSound (st (fresh_load keys d))));
                  CallSave] |};
       st := st (fresh_load keys d);
       console := console (fresh_load keys d) |}.
Proof.
  rewrite session_eq, save_effects_loaded; [done|].
  apply fresh_load_isLoading.
Qed.

Lemma session_in_sync keys d : in_sync (session keys d).
Proof.
  rewrite session_world. split; [done|]. intros key. simpl.
  apply saved_cache_lookup.
Qed.

(** X15.  When a provider has come to rest after its mount, the file
    holds the three preferences it has in memory, which are those the load
    gave; every other entry of the file is as it was; and after a load that
    failed (no file yet) the file is created with the three defaults. *)
Theorem session_writes_back keys d :
  in_sync (session keys d) ∧
  st (session keys d) = st (fresh_load keys d) ∧
  (∀ name : string, (∀ key, name ≠ key_name key) →
     cache (store (session keys d)) !! name
     = match d with Contents m => m !! name | Unreadable _ => None end) ∧
  (∀ e : string, d = Unreadable e →
     file (store (session keys d))
     = Contents (<["mute-sound" := VBool false]>
                   (<["show-keyboard" := VBool true]>
                      (<["piano-sound" := VStr "acoustic_grand_piano"]> ∅))) ∧
     console (session keys d) = [e]).
Proof.
  split; [apply session_in_sync|].
  rewrite session_world. simpl. split; [done|]. split.
  - intros name Hname. rewrite saved_cache_other by done.
    destruct d as [e|m].
    + by rewrite fresh_load_unreadable.
    + by destruct (fresh_load_contents keys m) as (s' & -> & _ & _).
  - intros e ->. by rewrite fresh_load_unreadable.
Qed.

Lemma session_writes_back_witness :
  file (store (session recognised_keys (Unreadable "no such file")))
  = Contents (<["mute-sound" := VBool false]>
                (<["show-keyboard" := VBool true]>
                   (<["piano-sound" := VStr "acoustic_grand_piano"]> ∅))) ∧
  cache (store (session recognised_keys
                  (Contents (<["theme" := VStr "dark"]> ∅)))) !! "theme"
  = Some (VStr "dark").
Proof.
  destruct (session_writes_back recognised_keys (Unreadable "no such file"))
    as (_ & _ & _ & Hfirst).
  destruct (session_writes_back recognised_keys
              (Contents (<["theme" := VStr "dark"]> ∅)))
    as (_ & _ & Hother & _).
  split.
  - by destruct (Hfirst "no such file" eq_refl).
  - rewrite (Hother "theme"); [done | by intros []].
Defined.

(** What a provider mounted over the file of a world in sync shows. *)
Lemma reload_preference keys w key :
  in_sync w →
  preference key (st (fresh_load keys (file (store w))))
  = if decide (key_name key ∈ keys)
    then (if Boolean (preference key (st w))
          then coerce key (preference key (st w))
          else preference key initial_state)
    else preference key initial_state.
Proof.
  intros [-> Hsync].
  destruct (fresh_load_contents keys (cache (store w))) as (s' & -> & _ & Hp).
  simpl. rewrite Hp. unfold loaded. by rewrite Hsync.
Qed.

(** X16.  Closing the application and opening it again without touching
    anything changes nothing: the second session ends with the same
    preferences in memory and the same file as the first, whatever the
    file was at the start and whatever keys the loop visits. *)
Theorem restart_is_stable keys d :
  st (session keys (file (store (session keys d)))) = st (session keys d) ∧
  file (store (session keys (file (store (session keys d)))))
  = file (store (session keys d)).
Proof.
  pose proof (session_in_sync keys d) as Hsync.
  assert (Hst : st (session keys (file (store (session keys d))))
                = st (session keys d)).
  { rewrite (session_world keys (file _)). simpl.
    apply state_ext.
    { rewrite fresh_load_isLoading. rewrite session_world. simpl.
      by rewrite fresh_load_isLoading. }
    intros key. rewrite reload_preference by done.
    rewrite (session_world keys d). simpl.
    destruct (fresh_load_settled keys d) as [Hshow Hpiano].
    destruct (decide (key_name key ∈ keys)) as [Hin|Hnin].
    - destruct key; simpl.
      + destruct (String.eqb_spec (pianoSound (st (fresh_load keys d)))
                    EmptyString); done.
      + by rewrite Hshow.
      + by destruct (muteSound (st (fresh_load keys d))).
    - by rewrite fresh_load_unvisited. }
  split; [done|].
  rewrite (session_world keys (file _)). simpl.
  destruct Hsync as [Hfile Hcache]. rewrite Hfile. f_equal.
  destruct (fresh_load_contents keys (cache (store (session keys d))))
    as (s' & Hload & _ & _).
  assert (Hst' : st (fresh_load keys (Contents (cache (store (session keys d)))))
                 = st (session keys d)).
  { rewrite <- Hst, <- Hfile. by rewrite (session_world keys (file _)). }
  transitivity
    (cache (store (fresh_load keys
                     (Contents (cache (store (session keys d))))))).
  - apply saved_cache_in_sync. intros key.
    rewrite Hst'. rewrite Hload. simpl. apply Hcache.
  - by rewrite Hload.
Qed.

End Session.

(** ** Changing preferences *)

Section Changes.

Import KVProvider.

Implicit Types (key : PTSettingsKeyType) (v : value) (w : world).
Implicit Types (keys : list string) (c : change) (cs : list change).

Lemma in_sync_saveSetting key v w s' :
  in_sync w →
  preference key s' = v →
  (∀ key', key' ≠ key → preference key' s' = preference key' (st w)) →
  in_sync
    {| store :=
         {| cache := <[key_name key := v]> (cache (store w));
            file := Contents (<[key_name key := v]> (cache (store w)));
            journal :=
              (journal (store w) ++ [CallSet (key_name key) v]) ++ [CallSave] |};
       st := s';
       console := console w |}.
Proof.
  intros [_ Hsync] Hv Hother. split; [done|]. simpl. intros key'.
  destruct (decide (key' = key)) as [->|Hne].
  - by rewrite lookup_insert_eq, Hv.
  - rewrite lookup_insert_ne by (intros Heq%key_name_inj; by apply Hne).
    by rewrite Hother.
Qed.

Lemma apply_change_loaded c w :
  isLoading (st w) = false → in_sync w →
  ∃ w', apply_change c w = (inr tt, w') ∧
        st w' = changed c (st w) ∧ console w' = console w ∧ in_sync w'.
Proof.
  intros Hl Hsync. destruct c as [x|b|b]; unfold apply_change.
  - case_decide as Heq.
    { exists w. repeat split; try apply Hsync.
      destruct w as [? [] ?]; simpl in *; by subst. }
    eexists. unfold mbind, M_bind, setPianoSound, with_state, save_pianoSound.
    simpl. rewrite Hl. rewrite saveSetting_loaded. simpl.
    split; [reflexivity|]. split; [done|]. split; [done|].
    apply (in_sync_saveSetting PianoSound); [done | done |].
    by intros [].
  - case_decide as Heq.
    { exists w. repeat split; try apply Hsync.
      destruct w as [? [] ?]; simpl in *; by subst. }
    eexists. unfold mbind, M_bind, setShowKeyboard, with_state,
      save_showKeyboard.
    simpl. rewrite Hl. rewrite saveSetting_loaded. simpl.
    split; [reflexivity|]. split; [done|]. split; [done|].
    apply (in_sync_saveSetting ShowKeyboard); [done | done |].
    by intros [].
  - case_decide as Heq.
    { exists w. repeat split; try apply Hsync.
      destruct w as [? [] ?]; simpl in *; by subst. }
    eexists. unfold mbind, M_bind, setMuteSound, with_state, save_muteSound.
    simpl. rewrite Hl. rewrite saveSetting_loaded. simpl.
    split; [reflexivity|]. split; [done|]. split; [done|].
    apply (in_sync_saveSetting MuteSound); [done | done |].
    by intros [].
Qed.

Lemma changed_isLoading c (s : state) : isLoading (changed c s) = isLoading s.
Proof. by destruct c. Qed.

(** X17.  Once the load has settled, the file follows the preferences:
    from a world whose file holds the preferences in memory, any sequence
    of changes through the setters ends in such a world again, with the
    state the changes ask for, one after the other. *)
Theorem changes_keep_file_in_sync cs w :
  isLoading (st w) = false →
  in_sync w →
  (apply_changes cs w).1 = inr tt ∧
  st (apply_changes cs w).2 = foldl (λ s c, changed c s) (st w) cs ∧
  in_sync (apply_changes cs w).2.
Proof.
  revert w. induction cs as [|c cs IH]; intros w Hl Hsync; [done|].
  destruct (apply_change_loaded c w Hl Hsync) as (w' & Hc & Hst & _ & Hsync').
  simpl. unfold mbind, M_bind. rewrite Hc.
  destruct (IH w') as (Hres & Hstate & Hs); [|done|].
  { by rewrite Hst, changed_isLoading. }
  by rewrite <- Hst.
Qed.

Lemma changes_keep_file_in_sync_witness :
  let w := session recognised_keys (Unreadable "no such file") in
  let cs := [ChangeMuteSound true; ChangePianoSound "marimba";
             ChangeMuteSound true] in
  st (apply_changes cs w).2
  = {| isLoading := false; pianoSound := "marimba"; showKeyboard := true;
       muteSound := true |} ∧
  in_sync (apply_changes cs w).2.
Proof.
  intros w cs.
  destruct (changes_keep_file_in_sync cs w) as (_ & Hst & Hsync).
  - reflexivity.
  - split; [reflexivity | by intros []].
  - split; [exact Hst | exact Hsync].
Defined.

(** X18.  What a restart keeps: when the file holds the preferences in
    memory and the loop visits the three keys, a provider mounted afresh
    over the file has the same mute setting, the same piano sound when it
    is not the empty string, and shows the keyboard if it was shown; and
    its file holds its preferences again. *)
Theorem restart_keeps_preferences keys w :
  in_sync w →
  (∀ key, key_name key ∈ keys) →
  muteSound (st (session keys (file (store w)))) = muteSound (st w) ∧
  (pianoSound (st w) ≠ EmptyString →
   pianoSound (st (session keys (file (store w)))) = pianoSound (st w)) ∧
  (showKeyboard (st w) = true →
   showKeyboard (st (session keys (file (store w)))) = true) ∧
  in_sync (session keys (file (store w))).
Proof.
  intros Hsync Hkeys.
  assert (Hp : ∀ key,
    preference key (st (session keys (file (store w))))
    = if Boolean (preference key (st w))
      then coerce key (preference key (st w))
      else preference key initial_state).
  { intros key. rewrite session_world. simpl.
    rewrite reload_preference by done. by rewrite decide_True. }
  split; [|split; [|split]].
  - pose proof (Hp MuteSound) as Hm. simpl in Hm.
    destruct (muteSound (st w)); by simplify_eq.
  - intros Hne. pose proof (Hp PianoSound) as Hm. simpl in Hm.
    destruct (String.eqb_spec (pianoSound (st w)) EmptyString); [done|].
    simpl in Hm. by injection Hm.
  - intros Hshow. pose proof (Hp ShowKeyboard) as Hm. simpl in Hm.
    rewrite Hshow in Hm. by simplify_eq.
  - apply session_in_sync.
Qed.

Lemma restart_keeps_preferences_witness :
  let w :=
    (apply_changes [ChangeMuteSound true; ChangePianoSound "marimba"]
       (session recognised_keys (Unreadable "no such file"))).2 in
  muteSound (st (session recognised_keys (file (store w)))) = true ∧
  pianoSound (st (session recognised_keys (file (store w)))) = "marimba" ∧
  showKeyboard (st (session recognised_keys (file (store w)))) = true.
Proof.
  intros w.
  destruct (restart_keeps_preferences recognised_keys w)
    as (Hmute & Hpiano & Hshow & _).
  - split; [reflexivity | by intros []].
  - intros []; by apply (bool_decide_unpack _); vm_compute.
  - split; [exact Hmute|]. split; [by apply Hpiano | by apply Hshow].
Defined.

End Changes.
